(** * Rate limiter: a shallow embedding of the decision engine

    JavaScript strings are sequences of UTF-16 code units; we model them as
    [list Z].  Millisecond timestamps, window lengths and limits are [Z]
    (the code only ever stores integral values in them).  The Redis database
    is a finite map from key to value; a sorted set whose last member is
    removed disappears from the database, as in Redis. *)

From Stdlib Require Import String Ascii ZArith Lia.
From stdpp Require Import base list gmap.
From Stdlib Require Import QArith Qminmax.

Open Scope Z_scope.

(** A JavaScript string: its UTF-16 code units. *)
Abbreviation jstr := (list Z).

(** A string literal of the source, as code units. *)
Definition js (s : string) : jstr :=
  map (fun a => Z.of_nat (nat_of_ascii a)) (list_ascii_of_string s).

(** [Math.ceil(a / b)] for an integral [a] and a positive [b]. *)
Definition ceil_div (a b : Z) : Z := - ((- a) / b).

(** [RateLimitRule] of [src/src/types/index.ts] (the fields the engine
    reads; the callbacks are modelled where they are used). *)
Inductive algorithm := Fixed | Sliding.

#[global] Instance algorithm_eq_dec : EqDecision algorithm.
Proof. solve_decision. Defined.

Record RateLimitRule := mkRule {
  id : jstr;
  windowMs : Z;
  maxRequests : Z;
  rule_algorithm : option algorithm
}.

(** [CacheEntry] of [src/src/types/index.ts].  A script reply
    [CacheEntry & { allowed: boolean }] is a pair [(entry, allowed)]. *)
Record CacheEntry := mkEntry {
  count : Z;
  resetTime : Z;
  createdAt : Z
}.

(** ** The sorted-set commands used by the sliding-window script *)
Module ZSet.

(** A sorted-set value: its members with their scores, and its TTL. *)
Record zentry := mkZ {
  zmembers : list (jstr * Z);
  zttl : option Z
}.

Abbreviation db := (gmap jstr zentry).

(** ZREMRANGEBYSCORE key -inf hi *)
Definition zremrangebyscore (d : db) (k : jstr) (hi : Z) : db :=
  match d !! k with
  | None => d
  | Some e =>
      match filter (fun m => hi < m.2) (zmembers e) with
      | [] => delete k d
      | ms => <[k := mkZ ms (zttl e)]> d
      end
  end.

(** ZCARD key *)
Definition zcard (d : db) (k : jstr) : Z :=
  match d !! k with
  | None => 0
  | Some e => Z.of_nat (length (zmembers e))
  end.

(** ZADD key score member: a new member is added, an existing one gets
    the new score. *)
Definition zadd (d : db) (k : jstr) (score : Z) (m : jstr) : db :=
  match d !! k with
  | None => <[k := mkZ [(m, score)] None]> d
  | Some e =>
      if decide (m ∈ map fst (zmembers e))
      then <[k := mkZ (map (fun p => if decide (p.1 = m) then (m, score) else p)
                            (zmembers e)) (zttl e)]> d
      else <[k := mkZ (zmembers e ++ [(m, score)]) (zttl e)]> d
  end.

(** EXPIRE key secs: no effect on a missing key; a non-positive timeout
    deletes the key. *)
Definition expire (d : db) (k : jstr) (secs : Z) : db :=
  match d !! k with
  | None => d
  | Some e => if decide (secs <= 0) then delete k d
              else <[k := mkZ (zmembers e) (Some secs)]> d
  end.

End ZSet.

(** ** [RedisService.slidingWindowCheck] (part_007, lines 309-377) *)
Module Sliding.
Import ZSet.

(** The Lua script run by [redis.eval]; the arguments are those of ARGV. *)
Definition script (d : db) (key : jstr) (now windowStart maxRequests resetTime : Z)
    (increment : bool) (requestId : jstr) (windowMs : Z) : db * (CacheEntry * bool) :=
  let d1 := zremrangebyscore d key windowStart in
  let currentCount := zcard d1 key in
  let allowed := currentCount <? maxRequests in
  let '(d2, finalCount) :=
    if increment && allowed
    then (zadd d1 key now requestId, currentCount + 1)
    else (d1, currentCount) in
  let d3 := if 0 <? finalCount then expire d2 key (ceil_div windowMs 1000) else d2 in
  (d3, (mkEntry finalCount resetTime now, allowed)).

(** The TypeScript wrapper: [windowStart = now - windowMs],
    [resetTime = now + windowMs]; [requestId] is the fresh token the
    wrapper draws. *)
Definition slidingWindowCheck (d : db) (key : jstr) (rule : RateLimitRule)
    (increment : bool) (now : Z) (requestId : jstr) : db * (CacheEntry * bool) :=
  script d key now (now - windowMs rule) (maxRequests rule) (now + windowMs rule)
    increment requestId (windowMs rule).

(** The members of [key] that survive the purge at [now]. *)
Definition kept (d : db) (key : jstr) (now w : Z) : list (jstr * Z) :=
  match d !! key with
  | None => []
  | Some e => filter (fun m => now - w < m.2) (zmembers e)
  end.

End Sliding.

(** ** The string-valued counters of the fixed-window paths

    [incrementCounterFixedWindow] and [incrementCounterFallback] keep a JSON
    encoded [CacheEntry] under the key; we keep the decoded entry.  Their
    TTLs ([SETEX] with [ceil((resetTime - now)/1000)] seconds) are not
    modelled: they never fall before [resetTime], so a key that has expired
    is one the code would reinitialise anyway. *)
Abbreviation sdb := (gmap jstr CacheEntry).

Module Fixed.

(** The Lua script of [incrementCounterFixedWindow] (lines 216-254). *)
Definition script (d : sdb) (key : jstr) (windowStart reset_time maxRequests now : Z)
    : sdb * (CacheEntry * bool) :=
  let data := match d !! key with
              | Some current => current
              | None => mkEntry 0 reset_time now
              end in
  let data := if now >=? resetTime data then mkEntry 0 reset_time now else data in
  if count data >=? maxRequests
  then (<[key := data]> d, (data, false))
  else
    let data := mkEntry (count data + 1) (resetTime data) (createdAt data) in
    (<[key := data]> d, (data, true)).

(** [incrementCounterFixedWindow] (lines 210-271): the window is aligned
    on [floor(now / windowMs) * windowMs]. *)
Definition incrementCounterFixedWindow (d : sdb) (key : jstr) (rule : RateLimitRule)
    (now : Z) : sdb * (CacheEntry * bool) :=
  let windowStart := now / windowMs rule * windowMs rule in
  let reset_time := windowStart + windowMs rule in
  script d key windowStart reset_time (maxRequests rule) now.

(** [incrementCounterFallback] (lines 273-291): a plain read-modify-write
    that always increments; it returns no [allowed] flag. *)
Definition incrementCounterFallback (d : sdb) (key : jstr) (rule : RateLimitRule)
    (now : Z) : sdb * CacheEntry :=
  let windowStart := now / windowMs rule * windowMs rule in
  let reset_time := windowStart + windowMs rule in
  let data := match d !! key with
              | Some existing =>
                  if now >=? resetTime existing then mkEntry 1 reset_time now
                  else mkEntry (count existing + 1) (resetTime existing)
                               (createdAt existing)
              | None => mkEntry 1 reset_time now
              end in
  (<[key := data]> d, data).

(** [getCurrentCountFixedWindow] (lines 123-135). *)
Definition getCurrentCountFixedWindow (d : sdb) (key : jstr) (rule : RateLimitRule)
    (now : Z) : CacheEntry :=
  let windowStart := now / windowMs rule * windowMs rule in
  let reset_time := windowStart + windowMs rule in
  match d !! key with
  | Some existing =>
      if now >=? resetTime existing then mkEntry 0 reset_time now else existing
  | None => mkEntry 0 reset_time now
  end.

End Fixed.

(** ** [RedisService.slidingWindowCheck] with its error paths

    A failing script is an input of the model: [StoreOk] runs the sliding
    script, [SlidingScriptFails] falls through to the fixed-window script,
    [FixedScriptFails] further down to [incrementCounterFallback] (for a
    check-and-increment) or [getCurrentCountFixedWindow] (for a read). *)
Inductive fault := StoreOk | SlidingScriptFails | FixedScriptFails.

Definition slidingWindowCheckTS (f : fault) (z : ZSet.db) (s : sdb) (key : jstr)
    (rule : RateLimitRule) (increment : bool) (now : Z) (requestId : jstr)
    : ZSet.db * sdb * (CacheEntry * bool) :=
  match f with
  | StoreOk =>
      let '(z', r) := Sliding.slidingWindowCheck z key rule increment now requestId in
      (z', s, r)
  | _ =>
      if increment then
        match f with
        | SlidingScriptFails =>
            let '(s', r) := Fixed.incrementCounterFixedWindow s key rule now in (z, s', r)
        | _ =>
            let '(s', e) := Fixed.incrementCounterFallback s key rule now in
            (z, s', (e, count e <=? maxRequests rule))
        end
      else
        let e := Fixed.getCurrentCountFixedWindow s key rule now in
        (z, s, (e, count e <? maxRequests rule))
  end.

(** ** The cache layer ([CacheService], part_007 lines 428-565) *)

(** [RateLimitInfo]; [retryAfter] is [None] when the field is undefined. *)
Record RateLimitInfo := mkInfo {
  totalRequests : Z;
  remainingRequests : Z;
  infoResetTime : Z;
  retryAfter : option Z
}.

(** [RateLimitResult] = [{ allowed, info, rule }]. *)
Record RateLimitResult := mkResult {
  allowed : bool;
  info : RateLimitInfo;
  result_rule : RateLimitRule
}.

(** [buildResult]; [now] is the [Date.now()] of the request. *)
Definition buildResult (data : CacheEntry) (rule : RateLimitRule) (allowed : bool)
    (now : Z) : RateLimitResult :=
  let remaining := Z.max 0 (maxRequests rule - count data) in
  let retryAfter := if allowed then None
                    else Some (ceil_div (resetTime data - now) 1000) in
  mkResult allowed (mkInfo (count data) remaining (resetTime data) retryAfter) rule.

(** [buildDefaultResult]. *)
Definition buildDefaultResult (rule : RateLimitRule) (allowed : bool) (now : Z)
    : RateLimitResult :=
  let resetTime := now + windowMs rule in
  mkResult allowed
    (mkInfo 0 (maxRequests rule) resetTime
       (if allowed then None else Some (ceil_div (windowMs rule) 1000)))
    rule.

Abbreviation localCache := (gmap jstr CacheEntry).

(** [checkRateLimitInMemory]: [now] is its own [Date.now()], [nowResult]
    the one [buildResult] reads afterwards. *)
Definition checkRateLimitInMemoryAt (lc : localCache) (key : jstr) (rule : RateLimitRule)
    (now nowResult : Z) : localCache * RateLimitResult :=
  let data :=
    match lc !! key with
    | Some existing =>
        if now >=? resetTime existing then
          mkEntry 1 (if decide (rule_algorithm rule = Some Sliding) then now + windowMs rule
                     else now / windowMs rule * windowMs rule + windowMs rule) now
        else mkEntry (count existing + 1) (resetTime existing) (createdAt existing)
    | None =>
        mkEntry 1 (if decide (rule_algorithm rule = Some Sliding) then now + windowMs rule
                   else now / windowMs rule * windowMs rule + windowMs rule) now
    end in
  let allowed := count data <=? maxRequests rule in
  (<[key := data]> lc, buildResult data rule allowed nowResult).

(** The two clock readings of [checkRateLimitInMemory] taken equal. *)
Definition checkRateLimitInMemory (lc : localCache) (key : jstr) (rule : RateLimitRule)
    (now : Z) : localCache * RateLimitResult :=
  checkRateLimitInMemoryAt lc key rule now now.

(** ** The circuit breaker ([src/src/utils/circuit-breaker.ts]) *)
Module Breaker.

Inductive cbState := CLOSED | OPEN | HALF_OPEN.

Record CircuitBreaker := mkCB {
  failures : Z;
  lastFailureTime : Z;
  state : cbState;
  failureThreshold : Z;
  recoveryTimeout : Z
}.

(** [new CircuitBreaker(failureThreshold, recoveryTimeout)]; the source's
    defaults are 5 and 30000. *)
Definition newCircuitBreaker (failureThreshold recoveryTimeout : Z) : CircuitBreaker :=
  mkCB 0 0 CLOSED failureThreshold recoveryTimeout.

Definition onSuccess (cb : CircuitBreaker) : CircuitBreaker :=
  mkCB 0 (lastFailureTime cb) CLOSED (failureThreshold cb) (recoveryTimeout cb).

Definition onFailure (cb : CircuitBreaker) (now : Z) : CircuitBreaker :=
  let failures := failures cb + 1 in
  mkCB failures now
    (if failures >=? failureThreshold cb then OPEN else state cb)
    (failureThreshold cb) (recoveryTimeout cb).

(** The guard at the top of [execute]: the state in which [operation] is
    invoked, or [false] when the call short-circuits to [fallback]. *)
Definition guard (cb : CircuitBreaker) (now : Z) : CircuitBreaker * bool :=
  match state cb with
  | OPEN =>
      if now - lastFailureTime cb >? recoveryTimeout cb
      then (mkCB (failures cb) (lastFailureTime cb) HALF_OPEN
                 (failureThreshold cb) (recoveryTimeout cb), true)
      else (cb, false)
  | _ => (cb, true)
  end.

(** What [operation()] does when it is invoked. *)
Inductive attempt (T : Type) := Returns (v : T) | Throws.
Arguments Returns {T} v.
Arguments Throws {T}.

(** Which value [execute] returns: the operation's or [fallback()]'s. *)
Inductive route (T : Type) := Primary (v : T) | Fallback.
Arguments Primary {T} v.
Arguments Fallback {T}.

(** [execute(operation, fallback)]: the new breaker, whether [operation]
    was invoked, and the route of the returned value. *)
Definition execute {T} (cb : CircuitBreaker) (now : Z) (op : attempt T)
    : CircuitBreaker * bool * route T :=
  let '(cb1, go) := guard cb now in
  if go then
    match op with
    | Returns v => (onSuccess cb1, true, Primary v)
    | Throws => (onFailure cb1 now, true, Fallback)
    end
  else (cb1, false, Fallback).

(** A sequence of calls, each at a time with the outcome the operation
    would have. *)
Fixpoint run (cb : CircuitBreaker) (calls : list (Z * bool)) : CircuitBreaker :=
  match calls with
  | [] => cb
  | (now, ok) :: rest =>
      let '(cb', _, _) := execute cb now (if ok then Returns tt else Throws) in
      run cb' rest
  end.

End Breaker.

(** The state of a [CacheService] and of the stores it reaches. *)
Record CacheState := mkCache {
  zstore : ZSet.db;
  sstore : sdb;
  lcache : localCache;
  breaker : Breaker.CircuitBreaker;
  enableInMemoryFallback : bool
}.

(** [CacheService.checkRateLimit]: the primary operation is the
    check-and-increment of the store followed by [buildResult]; whether it
    throws is an input.  [now] stands for every [Date.now()] of the call
    (the breaker's, the store call's, [buildResult]'s), taken equal. *)
Definition checkRateLimit (cs : CacheState) (key : jstr) (rule : RateLimitRule)
    (now : Z) (requestId : jstr) (f : fault) (primaryThrows : bool)
    : CacheState * RateLimitResult :=
  let op :=
    if primaryThrows then Breaker.Throws
    else
      let '(z', s', (data, ok)) :=
        slidingWindowCheckTS f (zstore cs) (sstore cs) key rule true now requestId in
      Breaker.Returns (z', s', buildResult data rule ok now) in
  let '(cb', _, r) := Breaker.execute (breaker cs) now op in
  match r with
  | Breaker.Primary (z', s', res) =>
      (mkCache z' s' (lcache cs) cb' (enableInMemoryFallback cs), res)
  | Breaker.Fallback =>
      if enableInMemoryFallback cs then
        let '(lc', res) := checkRateLimitInMemory (lcache cs) key rule now in
        (mkCache (zstore cs) (sstore cs) lc' cb' true, res)
      else
        (mkCache (zstore cs) (sstore cs) (lcache cs) cb' false,
         buildDefaultResult rule true now)
  end.

(** The branch [checkRateLimit] takes. *)
Definition checkRateLimitRoute (cs : CacheState) (now : Z) (primaryThrows : bool) : bool :=
  let '(_, _, r) := Breaker.execute (breaker cs) now
                      (if primaryThrows then Breaker.Throws else Breaker.Returns tt) in
  match r with Breaker.Primary _ => true | Breaker.Fallback => false end.

(** [CacheService.getCurrentCount] (no breaker). *)
Definition getCurrentCount (cs : CacheState) (key : jstr) (rule : RateLimitRule)
    (now : Z) (f : fault) : RateLimitResult :=
  let '(_, _, (data, ok)) :=
    slidingWindowCheckTS f (zstore cs) (sstore cs) key rule false now [] in
  buildResult data rule ok now.

(** ** Rule composition ([RateLimiterMiddleware.middleware], rate-limiter.ts
    lines 45-111) *)
Section Compose.
(** The request being handled, each rule's optional [skipIf] callback, and
    the cache layer's answer for a rule (computed on the rule's key). *)
Variable Req : Type.
Variable req : Req.
Variable skipIf : RateLimitRule -> option (Req -> bool).
Variable cacheCheck : RateLimitRule -> RateLimitResult.

(** [checkRule(req, rule, true)]: [null] is [None]. *)
Definition checkRule (rule : RateLimitRule) : option RateLimitResult :=
  let skip := match skipIf rule with Some p => p req | None => false end in
  if skip then None else Some (cacheCheck rule).

(** What the middleware does with the request. *)
Inductive verdict :=
| NextNoRule                                        (* no active rule: next() *)
| Blocked (blockedResult : RateLimitResult)         (* onLimitReached *)
| Passed (finalResult : RateLimitResult) (activeResults : list RateLimitResult).

Definition middleware (rules : list RateLimitRule) : verdict :=
  let results := map checkRule rules in
  let activeResults := omap (fun r => r) results in
  match activeResults with
  | [] => NextNoRule
  | first :: rest =>
      match List.find (fun r => negb (allowed r)) activeResults with
      | Some blockedResult => Blocked blockedResult
      | None =>
          Passed
            (fold_left (fun most current =>
                if maxRequests (result_rule current) <? maxRequests (result_rule most)
                then current else most) rest first)
            activeResults
      end
  end.

End Compose.

(** ** Keys ([HeadersUtil], part_005 lines 446-624) *)
Module Keys.

(** [/[^a-zA-Z0-9._-]/] *)
Definition isKeyChar (c : Z) : bool :=
  ((48 <=? c) && (c <=? 57)) || ((65 <=? c) && (c <=? 90)) ||
  ((97 <=? c) && (c <=? 122)) || (c =? 46) || (c =? 95) || (c =? 45).

Definition sanitizeKeyId (identifier : jstr) : jstr :=
  map (fun c => if isKeyChar c then c else 95) identifier.

(** Digits of [Number.prototype.toString(radix)] on a non-negative integer. *)
Definition digitChar (d : Z) : Z := if d <? 10 then 48 + d else 87 + d.

Fixpoint digitsAux (fuel : nat) (b n : Z) : jstr :=
  match fuel with
  | O => []
  | S f => (if n <? b then [] else digitsAux f b (n / b)) ++ [digitChar (n mod b)]
  end.

Definition toStringRadix (b n : Z) : jstr :=
  digitsAux (S (Z.to_nat (Z.log2 n))) b n.

(** [String(n)] for an integral number. *)
Definition numberToString (n : Z) : jstr :=
  if n <? 0 then js "-" ++ toStringRadix 10 (- n) else toStringRadix 10 n.

(** ECMAScript [ToInt32]. *)
Definition toInt32 (x : Z) : Z :=
  let m := x mod 2 ^ 32 in if m >=? 2 ^ 31 then m - 2 ^ 32 else m.

(** [hashString]: [hash = ((hash << 5) - hash) + char; hash = hash & hash]
    over the code units, then [Math.abs(hash).toString(36)]. *)
Definition hashString (str : jstr) : jstr :=
  let hash := fold_left (fun hash char => toInt32 (toInt32 (hash * 32) - hash + char))
                str 0 in
  toStringRadix 36 (Z.abs hash).

(** [generateRateLimitKey]: the hash input is the string concatenation
    [rule.id + rule.windowMs + rule.maxRequests]. *)
Definition generateRateLimitKey (identifier : jstr) (rule : RateLimitRule) : jstr :=
  let sanitizedId := sanitizeKeyId identifier in
  let ruleHash := hashString (id rule ++ numberToString (windowMs rule)
                                    ++ numberToString (maxRequests rule)) in
  js "rl:" ++ id rule ++ js ":" ++ ruleHash ++ js ":" ++ sanitizedId.

End Keys.

(** ** Client identifier ([HeadersUtil.getClientIdentifier] and
    [sanitizeIpAddress], part_005 lines 478-522) *)
Module Ident.

(** The request fields the extractor reads.  Node.js delivers these
    headers as strings, so the [Array.isArray] branches never apply. *)
Record Request := mkReq {
  xForwardedFor : option jstr;
  xRealIp : option jstr;
  xClientIp : option jstr;
  cfConnectingIp : option jstr;
  connRemoteAddress : option jstr;
  socketRemoteAddress : option jstr;
  reqIp : option jstr;
  remotePort : option Z
}.

(** JavaScript truthiness of an optional string. *)
Definition present (o : option jstr) : option jstr :=
  match o with Some (_ :: _) => o | _ => None end.

(** [/[\r\n\t\x00-\x1f\x7f-\x9f]/] *)
Definition isControl (c : Z) : bool :=
  ((0 <=? c) && (c <=? 31)) || ((127 <=? c) && (c <=? 159)).

(** The code units [String.prototype.trim] removes. *)
Definition isJsSpace (c : Z) : bool :=
  existsb (Z.eqb c) [9; 10; 11; 12; 13; 32; 160; 5760; 8232; 8233; 8239; 8287; 12288; 65279]
  || ((8192 <=? c) && (c <=? 8202)).

Fixpoint dropWhile (p : Z -> bool) (s : jstr) : jstr :=
  match s with [] => [] | c :: r => if p c then dropWhile p r else s end.

Fixpoint takeWhile (p : Z -> bool) (s : jstr) : jstr :=
  match s with [] => [] | c :: r => if p c then c :: takeWhile p r else [] end.

Definition trim (s : jstr) : jstr :=
  rev (dropWhile isJsSpace (rev (dropWhile isJsSpace s))).

(** [s.split(',')[0]] *)
Definition firstField (s : jstr) : jstr := takeWhile (fun c => negb (c =? 44)) s.

(** [s.split(sep)] *)
Fixpoint splitOn (sep : Z) (s : jstr) : list jstr :=
  match s with
  | [] => [[]]
  | c :: r =>
      if c =? sep then [] :: splitOn sep r
      else match splitOn sep r with
           | p :: ps => (c :: p) :: ps
           | [] => [[c]]
           end
  end.

Definition isDigit (c : Z) : bool := (48 <=? c) && (c <=? 57).

Definition isHex (c : Z) : bool :=
  isDigit c || ((97 <=? c) && (c <=? 102)) || ((65 <=? c) && (c <=? 70)).

(** [(?:25[0-5]|2[0-4][0-9]|[01]?[0-9][0-9]?)] on a whole field. *)
Definition isOctet (p : jstr) : bool :=
  match p with
  | [d] => isDigit d
  | [d1; d2] => isDigit d1 && isDigit d2
  | [d1; d2; d3] =>
      ((d1 =? 50) && (d2 =? 53) && (48 <=? d3) && (d3 <=? 53))
      || ((d1 =? 50) && (48 <=? d2) && (d2 <=? 52) && isDigit d3)
      || (((d1 =? 48) || (d1 =? 49)) && isDigit d2 && isDigit d3)
  | _ => false
  end.

(** [ipv4Regex.test]: four octets separated by dots. *)
Definition isIPv4 (s : jstr) : bool :=
  match splitOn 46 s with
  | [a; b; c; d] => isOctet a && isOctet b && isOctet c && isOctet d
  | _ => false
  end.

(** [ipv6Regex.test]: eight groups of 1 to 4 hex digits, [::1] or [::]. *)
Definition isIPv6 (s : jstr) : bool :=
  match splitOn 58 s with
  | [_; _; _; _; _; _; _; _] as gs =>
      forallb (fun g => (1 <=? Z.of_nat (length g)) && (Z.of_nat (length g) <=? 4)
                        && forallb isHex g) gs
  | _ => false
  end
  || bool_decide (s = js "::1") || bool_decide (s = js "::").

Definition stripControl (s : jstr) : jstr := List.filter (fun c => negb (isControl c)) s.

Definition sanitizeIpAddress (ip : jstr) : jstr :=
  let sanitized := firstn 45 (stripControl ip) in
  if isIPv4 sanitized || isIPv6 sanitized then sanitized
  else match sanitized with [] => js "unknown" | _ => sanitized end.

Definition getClientIdentifier (req : Request) : jstr :=
  match present (xForwardedFor req) with
  | Some forwarded => sanitizeIpAddress (trim (firstField forwarded))
  | None =>
  match present (xRealIp req) with
  | Some realIp => sanitizeIpAddress (trim realIp)
  | None =>
  match present (xClientIp req) with
  | Some clientIp => sanitizeIpAddress (trim clientIp)
  | None =>
  match present (cfConnectingIp req) with
  | Some cf => sanitizeIpAddress (trim cf)
  | None =>
      let ip := match present (connRemoteAddress req) with
                | Some a => a
                | None => match present (socketRemoteAddress req) with
                          | Some a => a
                          | None => match present (reqIp req) with
                                    | Some a => a
                                    | None => js "unknown"
                                    end
                          end
                end in
      let ip := sanitizeIpAddress ip in
      if bool_decide (ip = js "::1") || bool_decide (ip = js "127.0.0.1")
         || bool_decide (ip = js "localhost")
      then ip
      else match remotePort req with
           | Some port => if port =? 0 then ip else ip ++ js ":" ++ Keys.numberToString port
           | None => ip
           end
  end end end end.

(** The string the extractor chose, and whether it came from a header
    (header values are trimmed before sanitising, the remote address is
    not). *)
Definition chosen (req : Request) : jstr * bool :=
  match present (xForwardedFor req) with
  | Some forwarded => (trim (firstField forwarded), true)
  | None =>
  match present (xRealIp req) with
  | Some realIp => (trim realIp, true)
  | None =>
  match present (xClientIp req) with
  | Some clientIp => (trim clientIp, true)
  | None =>
  match present (cfConnectingIp req) with
  | Some cf => (trim cf, true)
  | None =>
      (match present (connRemoteAddress req) with
       | Some a => a
       | None => match present (socketRemoteAddress req) with
                 | Some a => a
                 | None => match present (reqIp req) with
                           | Some a => a
                           | None => js "unknown"
                           end
                 end
       end, false)
  end end end end.

End Ident.

(** ** Administrative reset ([RateLimiterMiddleware.resetRateLimit],
    rate-limiter.ts lines 220-236, and [CacheService.resetRateLimit]) *)
Module Reset.

Record LimiterState := mkState {
  redisKeys : gset jstr;
  localEntries : localCache;
  throttleMap : gmap jstr Z
}.

(** [CacheService.resetRateLimit(key)]: inside one [try], [getClient()]
    and [redis.del(key)], then [localCache.delete(key)]; an error from
    the client or from [del] is caught and logged, so the local entry is
    then kept as well.  [delOk key] says whether [getClient()] and
    [redis.del(key)] succeed. *)
Definition cacheResetRateLimit (delOk : jstr -> bool) (st : LimiterState) (key : jstr)
    : LimiterState :=
  if delOk key
  then mkState (redisKeys st ∖ {[key]}) (delete key (localEntries st)) (throttleMap st)
  else st.

(** [ruleId] is [undefined] when [None]; [if (ruleId)] tests truthiness. *)
Definition resetRateLimit (delOk : jstr -> bool) (rules : list RateLimitRule)
    (st : LimiterState) (identifier : jstr) (ruleId : option jstr) : LimiterState :=
  let st1 :=
    match Ident.present ruleId with
    | Some rid =>
        match List.find (fun r => bool_decide (id r = rid)) rules with
        | Some rule => cacheResetRateLimit delOk st (Keys.generateRateLimitKey identifier rule)
        | None => st
        end
    | None =>
        fold_left (fun st rule =>
                     cacheResetRateLimit delOk st (Keys.generateRateLimitKey identifier rule))
                  rules st
    end in
  mkState (redisKeys st1) (localEntries st1) (delete identifier (throttleMap st1)).

End Reset.

(** ** The other sorted-set scripts of [RedisService] and the middleware *)
Module SlidingMore.
Import ZSet.

(** ZREM key member; a set left empty disappears. *)
Definition zrem (d : db) (k m : jstr) : db :=
  match d !! k with
  | None => d
  | Some e =>
      match filter (fun p => p.1 <> m) (zmembers e) with
      | [] => delete k d
      | ms => <[k := mkZ ms (zttl e)]> d
      end
  end.

(** Redis compares members of equal score as binary strings. *)
Fixpoint lexLt (a b : jstr) : bool :=
  match a, b with
  | [], [] => false
  | [], _ :: _ => true
  | _ :: _, [] => false
  | x :: a', y :: b' => (x <? y) || ((x =? y) && lexLt a' b')
  end.

(** [p] comes before [q] in ZREVRANGE order: higher score first, equal
    scores in reverse lexicographic order of the members. *)
Definition above (p q : jstr * Z) : bool :=
  (q.2 <? p.2) || ((p.2 =? q.2) && lexLt q.1 p.1).

Fixpoint topMember (ms : list (jstr * Z)) : option (jstr * Z) :=
  match ms with
  | [] => None
  | p :: r =>
      match topMember r with
      | None => Some p
      | Some q => if above q p then Some q else Some p
      end
  end.

(** The member of [ZREVRANGE key 0 0 WITHSCORES], when there is one. *)
Definition zrevrangeTop (d : db) (k : jstr) : option jstr :=
  match d !! k with
  | None => None
  | Some e => option_map fst (topMember (zmembers e))
  end.

(** The Lua script of [incrementCounterSlidingWindow] (part_007 lines
    143-186). *)
Definition incrementScript (d : db) (key : jstr) (now windowStart maxRequests resetTime : Z)
    (requestId : jstr) (windowMs : Z) : db * (CacheEntry * bool) :=
  let d1 := zremrangebyscore d key windowStart in
  let currentCount := zcard d1 key in
  if maxRequests <=? currentCount then
    (expire d1 key (ceil_div windowMs 1000), (mkEntry currentCount resetTime now, false))
  else
    let d2 := zadd d1 key now requestId in
    let finalCount := zcard d2 key in
    if maxRequests <? finalCount then
      let d3 := zrem d2 key requestId in
      let finalCount := zcard d3 key in
      (expire d3 key (ceil_div windowMs 1000), (mkEntry finalCount resetTime now, false))
    else
      (expire d2 key (ceil_div windowMs 1000), (mkEntry finalCount resetTime now, true)).

(** [incrementCounterSlidingWindow] when the script runs; [requestId] is the
    token the wrapper draws. *)
Definition incrementCounterSlidingWindow (d : db) (key : jstr) (rule : RateLimitRule)
    (now : Z) (requestId : jstr) : db * (CacheEntry * bool) :=
  incrementScript d key now (now - windowMs rule) (maxRequests rule) (now + windowMs rule)
    requestId (windowMs rule).

(** The Lua script of [getCurrentCountSlidingWindow] (lines 83-102). *)
Definition readScript (d : db) (key : jstr) (windowStart resetTime now windowMs : Z)
    : db * CacheEntry :=
  let d1 := zremrangebyscore d key windowStart in
  let currentCount := zcard d1 key in
  let d2 := if 0 <? currentCount then expire d1 key (ceil_div windowMs 1000) else d1 in
  (d2, mkEntry currentCount resetTime now).

Definition getCurrentCountSlidingWindow (d : db) (key : jstr) (rule : RateLimitRule)
    (now : Z) : db * CacheEntry :=
  readScript d key (now - windowMs rule) (now + windowMs rule) now (windowMs rule).

(** The Lua script of [RedisService.revertIncrement] (lines 392-409). *)
Definition revertIncrementScript (d : db) (key : jstr) (windowStart windowMs : Z) : db * Z :=
  let d1 := match zrevrangeTop d key with Some m => zrem d key m | None => d end in
  let d2 := zremrangebyscore d1 key windowStart in
  let count := zcard d2 key in
  let d3 := if 0 <? count then expire d2 key (ceil_div windowMs 1000) else d2 in
  (d3, count).

Definition revertIncrement (d : db) (key : jstr) (rule : RateLimitRule) (now : Z) : db :=
  fst (revertIncrementScript d key (now - windowMs rule) (windowMs rule)).

(** The Lua script of [RateLimiterMiddleware.revertRateLimit]
    (rate-limiter.ts lines 298-307); its [windowStart] argument is unused. *)
Definition revertScript (d : db) (key : jstr) : db * Z :=
  let d1 := match zrevrangeTop d key with Some m => zrem d key m | None => d end in
  (d1, zcard d1 key).

Definition revertRateLimit (d : db) (identifier : jstr) (rule : RateLimitRule) : db :=
  fst (revertScript d (Keys.generateRateLimitKey identifier rule)).

(** The [finish] handler of [setupPostResponseHandling]: whether the
    response is reverted, then a revert for every allowed result.  The
    handler's [identifier] is [this.options.keyGenerator(req)] for every
    result, also for a rule that [checkRule] counted under its own
    [rule.keyGenerator(req)]. *)
Definition shouldRevert (statusCode : Z) (skipSuccessfulRequests skipFailedRequests : bool)
    : bool :=
  let isSuccess := (200 <=? statusCode) && (statusCode <? 300) in
  let isError := 400 <=? statusCode in
  (isSuccess && skipSuccessfulRequests) || (isError && skipFailedRequests).

Definition onFinish (d : db) (identifier : jstr) (statusCode : Z)
    (skipSuccessfulRequests skipFailedRequests : bool) (results : list RateLimitResult) : db :=
  if shouldRevert statusCode skipSuccessfulRequests skipFailedRequests then
    fold_left (fun d result =>
                 if allowed result then revertRateLimit d identifier (result_rule result) else d)
              results d
  else d.

End SlidingMore.

(** ** [CacheService.startLocalCacheCleanup]: one sweep of the timer *)
Definition localCacheSweep (lc : localCache) (now : Z) : localCache :=
  filter (fun kv : jstr * CacheEntry => ~ (now > resetTime kv.2)) lc.

(** ** [calculateThrottleDelay] and [cleanupThrottleMap]
    (rate-limiter.ts lines 238-262).  [windowMs / maxRequests] is a
    JavaScript division; we compute it exactly in [Q]. *)
Module Throttle.

Definition cleanupThrottleMap (tm : gmap jstr Z) (now : Z) : gmap jstr Z :=
  if 1000 <? Z.of_nat (size tm) then
    let cutoff := now - 60000 in
    filter (fun kv : jstr * Z => ~ (kv.2 < cutoff)) tm
  else tm.

Definition calculateThrottleDelay (rules : list RateLimitRule) (tm : gmap jstr Z)
    (identifier : jstr) (now : Z) : gmap jstr Z * Q :=
  let lastRequest := match tm !! identifier with Some t => t | None => 0 end in
  let timeSinceLastRequest := now - lastRequest in
  match List.find (fun r => bool_decide (id r = js "burst")) rules with
  | None => (tm, 0%Q)
  | Some burstRule =>
      if maxRequests burstRule =? 0 then (tm, 0%Q)
      else
        let minInterval := (inject_Z (windowMs burstRule) / inject_Z (maxRequests burstRule))%Q in
        let delay := Qmax 0 (minInterval - inject_Z timeSinceLastRequest) in
        (cleanupThrottleMap (<[identifier := now]> tm) now, delay)
  end.

End Throttle.

(** [HeadersUtil.sanitizeHeaderValue] (part_005 lines 564-566). *)
Definition sanitizeHeaderValue (value : jstr) : jstr :=
  firstn 100 (List.filter (fun c => negb ((c =? 13) || (c =? 10) || (c =? 9))) value).

(** A request that differs from [req] only in its remote port. *)
Definition withPort (req : Ident.Request) (p : option Z) : Ident.Request :=
  Ident.mkReq (Ident.xForwardedFor req) (Ident.xRealIp req) (Ident.xClientIp req)
    (Ident.cfConnectingIp req) (Ident.connRemoteAddress req) (Ident.socketRemoteAddress req)
    (Ident.reqIp req) p.

(** ** Arrival sequences on one key *)

(** The fixed-window path ([incrementCounterFixedWindow]) on successive
    arrivals. *)
Fixpoint runFixed (d : sdb) (key : jstr) (rule : RateLimitRule) (ts : list Z)
    : list (CacheEntry * bool) :=
  match ts with
  | [] => []
  | now :: ts' =>
      let '(d', r) := Fixed.incrementCounterFixedWindow d key rule now in
      r :: runFixed d' key rule ts'
  end.

(** The in-memory fallback ([checkRateLimitInMemory]) on successive
    arrivals. *)
Fixpoint runMem (lc : localCache) (key : jstr) (rule : RateLimitRule) (ts : list Z)
    : list RateLimitResult :=
  match ts with
  | [] => []
  | now :: ts' =>
      let '(lc', r) := checkRateLimitInMemory lc key rule now in
      r :: runMem lc' key rule ts'
  end.

(** ** Concurrent clients of the store

    The server runs one command at a time: every command, and every
    [EVAL] of a Lua script as a whole, is one atomic step on the
    database.  A client is a program of commands, each continuing with
    the server's reply; concurrent clients are interleaved command by
    command, as a schedule picks which client's next command runs. *)
Module Concurrent.
Import ZSet.

(** A server reply: an integer, or the decoded JSON the sliding script
    returns. *)
Inductive reply := RInt (n : Z) | RJson (r : CacheEntry * bool).

Inductive prog :=
| Done (r : CacheEntry * bool)
| Cmd (c : db -> db * reply) (k : reply -> prog).

(** [slidingWindowCheck(key, rule, true)] at [now] with the drawn
    [requestId]: one [EVAL] of the script, then [JSON.parse] of its
    reply. *)
Definition evalCheck (key : jstr) (rule : RateLimitRule) (now : Z) (requestId : jstr) : prog :=
  Cmd (fun d => let '(d', r) := Sliding.slidingWindowCheck d key rule true now requestId in
                (d', RJson r))
      (fun rep => match rep with
                  | RJson r => Done r
                  | RInt _ => Done (mkEntry 0 0 0, false)
                  end).

(** For contrast, the script's four commands sent one by one by the
    client, the admission decided on the client from the [ZCARD] reply. *)
Definition multiCheck (key : jstr) (rule : RateLimitRule) (now : Z) (requestId : jstr) : prog :=
  let secs := ceil_div (windowMs rule) 1000 in
  Cmd (fun d => (zremrangebyscore d key (now - windowMs rule), RInt 0)) (fun _ =>
  Cmd (fun d => (d, RInt (zcard d key))) (fun rep =>
    let c := match rep with RInt n => n | RJson _ => 0 end in
    if c <? maxRequests rule then
      Cmd (fun d => (zadd d key now requestId, RInt 1)) (fun _ =>
      Cmd (fun d => (expire d key secs, RInt 1)) (fun _ =>
      Done (mkEntry (c + 1) (now + windowMs rule) now, true)))
    else if 0 <? c then
      Cmd (fun d => (expire d key secs, RInt 1)) (fun _ =>
      Done (mkEntry c (now + windowMs rule) now, false))
    else Done (mkEntry c (now + windowMs rule) now, false))).

(** One step of client [i]: its next command runs atomically on the
    database; a finished or unknown client takes no step. *)
Definition step (d : db) (ps : list prog) (i : nat) : db * list prog :=
  match ps !! i with
  | Some (Cmd c k) => let '(d', rep) := c d in (d', <[i := k rep]> ps)
  | _ => (d, ps)
  end.

(** An interleaving: the clients stepped in the order of [sched]. *)
Definition run (d : db) (ps : list prog) (sched : list nat) : db * list prog :=
  fold_left (fun st i => step st.1 st.2 i) sched (d, ps).

(** A check request: key, rule, clock reading and drawn token. *)
Abbreviation request := (jstr * RateLimitRule * Z * jstr)%type.

Definition checkOf (q : request) : prog :=
  let '(key, rule, now, tok) := q in evalCheck key rule now tok.

(** The serial execution of the requests [order] names: each check runs
    to its end, then the next one starts. *)
Definition serialFrom (reqs : list request) (st : db * list prog) (order : list nat)
    : db * list prog :=
  fold_left (fun st i =>
               match reqs !! i with
               | Some (key, rule, now, tok) =>
                   let '(d', r) := Sliding.slidingWindowCheck st.1 key rule true now tok in
                   (d', <[i := Done r]> st.2)
               | None => st
               end) order st.

(** The clients of [sched] in the order of their first step, skipping
    those outside [0, n) and those already in [seen]. *)
Fixpoint firstSteps (n : nat) (sched seen : list nat) : list nat :=
  match sched with
  | [] => []
  | i :: s =>
      if bool_decide (i < n)%nat && negb (bool_decide (i ∈ seen))
      then i :: firstSteps n s (i :: seen)
      else firstSteps n s seen
  end.

(** Whether a client has finished, and with which [allowed]. *)
Definition doneAllowed (p : prog) : option bool :=
  match p with Done (_, ok) => Some ok | Cmd _ _ => None end.

End Concurrent.

(** ** Concrete configurations used to exercise the statements *)
Module Examples.

(** The burst and global rules of the demonstration server. *)
Definition ruleGlobal : RateLimitRule := mkRule (js "global") 900000 1000 None.
Definition ruleBurst : RateLimitRule := mkRule (js "burst") 1000 10 None.

(** A cache answer for a client that already sent 10 requests. *)
Definition cacheAfter10 (r : RateLimitRule) : RateLimitResult :=
  buildResult (mkEntry 11 2000 1000) r (11 <=? maxRequests r) 1000.

Definition noSkip (r : RateLimitRule) : option (unit -> bool) := None.

End Examples.

(** ======================================================================= *)
(** * Properties *)

Lemma ceil_div_pos (w : Z) : 0 < w -> 0 < ceil_div w 1000.
Proof.
  intros Hw. unfold ceil_div.
  assert ((- w) / 1000 < 0) by (apply Z.div_lt_upper_bound; lia). lia.
Qed.

(** Turns boolean comparisons in hypotheses into propositions for [lia]. *)
Ltac zbool :=
  repeat match goal with
  | H : (_ >=? _) = _ |- _ => rewrite Z.geb_leb in H
  | H : (_ >? _) = _ |- _ => rewrite Z.gtb_ltb in H
  | H : (_ <=? _) = true |- _ => apply Z.leb_le in H
  | H : (_ <=? _) = false |- _ => apply Z.leb_gt in H
  | H : (_ <? _) = true |- _ => apply Z.ltb_lt in H
  | H : (_ <? _) = false |- _ => apply Z.ltb_ge in H
  end.

Module SlidingFacts.
Import ZSet Sliding.

Lemma zremrangebyscore_other (d : db) k k' hi :
  k' <> k -> zremrangebyscore d k hi !! k' = d !! k'.
Proof.
  intros Hne. unfold zremrangebyscore.
  repeat case_match;
    rewrite ?lookup_delete_ne, ?lookup_insert_ne by congruence; done.
Qed.

Lemma zadd_other (d : db) k k' s m :
  k' <> k -> zadd d k s m !! k' = d !! k'.
Proof.
  intros Hne. unfold zadd.
  repeat case_match;
    rewrite ?lookup_delete_ne, ?lookup_insert_ne by congruence; done.
Qed.

Lemma expire_other (d : db) k k' s :
  k' <> k -> expire d k s !! k' = d !! k'.
Proof.
  intros Hne. unfold expire.
  repeat case_match;
    rewrite ?lookup_delete_ne, ?lookup_insert_ne by congruence; done.
Qed.

Lemma zremrangebyscore_key (d : db) k now w :
  exists t, zremrangebyscore d k (now - w) !! k =
    match kept d k now w with [] => None | ms => Some (mkZ ms t) end.
Proof.
  unfold zremrangebyscore, kept.
  destruct (d !! k) as [e|] eqn:He; [|exists None; done].
  exists (zttl e).
  destruct (filter _ _) eqn:Hf; [by rewrite lookup_delete_eq|].
  by rewrite lookup_insert_eq.
Qed.

Lemma kept_fresh (d : db) k now w tok :
  (forall e, d !! k = Some e -> tok ∉ map fst (zmembers e)) ->
  tok ∉ map fst (kept d k now w).
Proof.
  intros Hfresh Hin. unfold kept in Hin.
  destruct (d !! k) as [e|]; [|by apply not_elem_of_nil in Hin].
  apply (Hfresh e eq_refl).
  apply list_elem_of_fmap in Hin as [p [-> Hp]].
  apply list_elem_of_filter in Hp as [_ Hp].
  apply list_elem_of_fmap. eauto.
Qed.

(** C1.  A check-and-increment call purges the members scored at most
    [now - windowMs]; with [C] the members left, it adds the fresh token
    at score [now], sets the TTL to [ceil(windowMs/1000)] seconds and
    answers [(C+1, now+windowMs, true)] when [C < maxRequests]; otherwise
    it adds nothing, refreshes the TTL of the (non-empty) set and answers
    [(C, now+windowMs, false)].  No other key is touched. *)
Theorem slidingWindowCheck_increment (d : db) (key : jstr) (rule : RateLimitRule)
    (now : Z) (tok : jstr) :
  0 < windowMs rule ->
  (forall e, d !! key = Some e -> tok ∉ map fst (zmembers e)) ->
  let ks := kept d key now (windowMs rule) in
  let C := Z.of_nat (length ks) in
  let secs := ceil_div (windowMs rule) 1000 in
  let d' := fst (slidingWindowCheck d key rule true now tok) in
  let r := snd (slidingWindowCheck d key rule true now tok) in
  resetTime r.1 = now + windowMs rule /\
  (forall k, k <> key -> d' !! k = d !! k) /\
  (C < maxRequests rule ->
     count r.1 = C + 1 /\ r.2 = true /\
     d' !! key = Some (mkZ (ks ++ [(tok, now)]) (Some secs))) /\
  (maxRequests rule <= C ->
     count r.1 = C /\ r.2 = false /\
     d' !! key = match ks with [] => None | _ => Some (mkZ ks (Some secs)) end).
Proof.
  intros Hw Hfresh ks C secs d' r.
  pose proof (ceil_div_pos _ Hw) as Hs.
  destruct (zremrangebyscore_key d key now (windowMs rule)) as [t Ht].
  pose proof (kept_fresh d key now (windowMs rule) tok Hfresh) as Hf.
  subst d' r. unfold slidingWindowCheck, script.
  set (d1 := zremrangebyscore d key (now - windowMs rule)) in *.
  assert (Hother : forall k, k <> key -> d1 !! k = d !! k)
    by (intros; apply zremrangebyscore_other; done).
  clearbody d1. fold ks in Ht, Hf.
  assert (Hc : zcard d1 key = C).
  { unfold zcard; rewrite Ht; subst C; destruct ks; reflexivity. }
  rewrite Hc. clearbody ks. subst C secs.
  split; [destruct (_ && _); destruct (0 <? _); reflexivity|].
  split.
  { intros k Hk.
    destruct (_ && _); simpl; destruct (0 <? _);
      rewrite ?expire_other, ?zadd_other; auto. }
  split; intros Hlt.
  - destruct (Z.ltb_spec (Z.of_nat (length ks)) (maxRequests rule)); [|lia].
    simpl andb. cbv iota beta. cbn [fst snd count].
    destruct (Z.ltb_spec 0 (Z.of_nat (length ks) + 1)); [|lia].
    unfold zadd; rewrite Ht.
    destruct ks as [|m ms].
    + unfold expire; rewrite lookup_insert_eq.
      destruct (decide (ceil_div (windowMs rule) 1000 <= 0)); [lia|].
      rewrite lookup_insert_eq. auto.
    + simpl zmembers.
      destruct (decide (tok ∈ map fst (m :: ms))); [contradiction|].
      unfold expire; rewrite lookup_insert_eq.
      destruct (decide (ceil_div (windowMs rule) 1000 <= 0)); [lia|].
      rewrite lookup_insert_eq. auto.
  - destruct (Z.ltb_spec (Z.of_nat (length ks)) (maxRequests rule)); [lia|].
    simpl andb. cbv iota beta. cbn [fst snd count].
    destruct ks as [|m ms].
    + simpl. auto.
    + destruct (Z.ltb_spec 0 (Z.of_nat (length (m :: ms)))); [|simpl in *; lia].
      unfold expire; rewrite Ht.
      destruct (decide (ceil_div (windowMs rule) 1000 <= 0)); [lia|].
      rewrite lookup_insert_eq. auto.
Qed.

End SlidingFacts.

Module SlidingWitness.
Import ZSet Sliding SlidingFacts.

(** The first request of a client, on an empty store, under a rule of
    two requests per second. *)
Lemma slidingWindowCheck_increment_witness :
  0 < windowMs (mkRule (js "api") 1000 2 None) /\
  (forall e, (∅ : db) !! js "k" = Some e -> js "t" ∉ map fst (zmembers e)) /\
  count (snd (slidingWindowCheck ∅ (js "k") (mkRule (js "api") 1000 2 None)
                true 5000 (js "t"))).1 = 1.
Proof.
  split; [reflexivity|].
  split; [intros e He; rewrite lookup_empty in He; discriminate|].
  destruct (slidingWindowCheck_increment ∅ (js "k") (mkRule (js "api") 1000 2 None)
              5000 (js "t")) as (_ & _ & Hlt & _).
  - reflexivity.
  - intros e He; rewrite lookup_empty in He; discriminate.
  - apply Hlt. reflexivity.
Defined.

End SlidingWitness.

Module ComposeFacts.

Lemma omap_id_map {A B} (f : A -> option B) (l : list A) :
  omap (fun r => r) (map f l) = omap f l.
Proof.
  induction l as [|a l IH]; [done|]. csimpl.
  destruct (f a); [f_equal|]; exact IH.
Qed.

Lemma find_first {A} (p : A -> bool) (l : list A) (x : A) :
  List.find p l = Some x ->
  exists pre post, l = pre ++ x :: post /\ p x = true /\
                   forall y, y ∈ pre -> p y = false.
Proof.
  induction l as [|a l IH]; simpl; [discriminate|].
  destruct (p a) eqn:Hpa.
  - intros [= <-]. exists [], l. split; [done|]. split; [done|].
    intros y Hy. by apply not_elem_of_nil in Hy.
  - intros Hf. destruct (IH Hf) as (pre & post & -> & Hx & Hpre).
    exists (a :: pre), post. split; [done|]. split; [done|].
    intros y Hy. apply elem_of_cons in Hy as [->|Hy]; auto.
Qed.

Lemma omap_split {A B} (f : A -> option B) (l : list A) pre x post :
  omap f l = pre ++ x :: post ->
  exists lpre a lpost, l = lpre ++ a :: lpost /\ f a = Some x /\ omap f lpre = pre.
Proof.
  revert pre. induction l as [|a l IH]; intros pre; csimpl.
  - intros H. by destruct pre.
  - destruct (f a) as [y|] eqn:Hfa.
    + destruct pre as [|b pre]; simpl.
      * intros [= -> _]. exists [], a, l. done.
      * intros [= -> Hrest]. destruct (IH pre Hrest) as (lpre & a' & lpost & -> & Ha' & Hp).
        exists (a :: lpre), a', lpost. csimpl. rewrite Hfa, Hp. done.
    + intros Hrest. destruct (IH pre Hrest) as (lpre & a' & lpost & -> & Ha' & Hp).
      exists (a :: lpre), a', lpost. csimpl. rewrite Hfa, Hp. done.
Qed.

Lemma tightest_fold (rest : list RateLimitResult) (first : RateLimitResult) :
  let w := fold_left (fun most current =>
              if maxRequests (result_rule current) <? maxRequests (result_rule most)
              then current else most) rest first in
  w ∈ first :: rest /\
  forall x, x ∈ first :: rest -> maxRequests (result_rule w) <= maxRequests (result_rule x).
Proof.
  revert first. induction rest as [|b rest IH]; intros a; simpl.
  - split; [by left|]. intros x Hx. apply elem_of_cons in Hx as [->|Hx]; [lia|].
    by apply not_elem_of_nil in Hx.
  - set (a' := if maxRequests (result_rule b) <? maxRequests (result_rule a) then b else a).
    destruct (IH a') as [Hin Hle]. split.
    + apply elem_of_cons in Hin as [->|Hin].
      * subst a'. destruct (_ <? _); [right; left|left].
      * right; right; done.
    + assert (Ha'a : maxRequests (result_rule a') <= maxRequests (result_rule a) /\
                     maxRequests (result_rule a') <= maxRequests (result_rule b)).
      { subst a'. destruct (Z.ltb_spec (maxRequests (result_rule b))
                                        (maxRequests (result_rule a))); lia. }
      intros x Hx. apply elem_of_cons in Hx as [->|Hx].
      * assert (Hw := Hle a' ltac:(by left)); lia.
      * apply elem_of_cons in Hx as [->|Hx].
        -- assert (Hw := Hle a' ltac:(by left)); lia.
        -- apply Hle. by right.
Qed.

Lemma checkRule_some {Req} (req : Req) skipIf cacheCheck r x :
  checkRule Req req skipIf cacheCheck r = Some x -> x = cacheCheck r.
Proof. unfold checkRule. cbv zeta. repeat case_match; congruence. Qed.

(** C2.  Among the non-inert results (rules whose [skipIf] did not fire),
    if one denies, the middleware answers with the first denier in the
    configured order, whose [rule] is that configured rule; otherwise it
    admits with the active result whose rule has the smallest
    [maxRequests].  With no active result it calls [next()]. *)
Theorem middleware_first_deny_or_tightest {Req} (req : Req)
    (skipIf : RateLimitRule -> option (Req -> bool))
    (cacheCheck : RateLimitRule -> RateLimitResult) (rules : list RateLimitRule) :
  (forall r, result_rule (cacheCheck r) = r) ->
  let active := omap (checkRule Req req skipIf cacheCheck) rules in
  match middleware Req req skipIf cacheCheck rules with
  | NextNoRule => active = []
  | Blocked b =>
      (allowed b = false /\ b ∈ active /\
       exists pre post, rules = pre ++ result_rule b :: post /\
         checkRule Req req skipIf cacheCheck (result_rule b) = Some b /\
         forall r x, r ∈ pre -> checkRule Req req skipIf cacheCheck r = Some x ->
                     allowed x = true)
  | Passed w act =>
      (act = active /\ w ∈ act /\ (forall x, x ∈ act -> allowed x = true) /\
       forall x, x ∈ act -> maxRequests (result_rule w) <= maxRequests (result_rule x))
  end.
Proof.
  intros Hrule active. subst active. unfold middleware.
  rewrite omap_id_map.
  destruct (omap (checkRule Req req skipIf cacheCheck) rules) as [|a rest] eqn:Ha;
    [done|].
  destruct (List.find (fun r => negb (allowed r)) (a :: rest)) as [b|] eqn:Hf.
  - destruct (find_first _ _ _ Hf) as (pre' & post' & Hsplit & Hb & Hpre').
    rewrite <- Ha in Hsplit.
    destruct (omap_split _ _ _ _ _ Hsplit) as (lpre & r & lpost & Hrules & Hr & Hlpre).
    assert (Hbr : result_rule b = r).
    { apply checkRule_some in Hr. subst b. apply Hrule. }
    split; [destruct (allowed b); done|].
    split.
    { rewrite <- Ha, Hsplit. apply elem_of_app. right. by left. }
    exists lpre, lpost. rewrite Hbr. split; [done|]. split; [done|].
    intros r' x Hr' Hx.
    assert (Hxin : x ∈ pre').
    { rewrite <- Hlpre. apply list_elem_of_omap. eauto. }
    specialize (Hpre' x Hxin). destruct (allowed x); done.
  - pose proof (find_none _ _ Hf) as Hnone.
    destruct (tightest_fold rest a) as [Hin Hle].
    split; [done|]. split; [done|]. split; [|done].
    intros x Hx. apply list_elem_of_In in Hx.
    specialize (Hnone x Hx). cbv beta in Hnone. destruct (allowed x); done.
Qed.

End ComposeFacts.

Module ComposeWitness.
Import Examples ComposeFacts.

(** The burst rule denies, the global rule admits: the burst result wins. *)
Lemma middleware_first_deny_or_tightest_witness :
  (forall r, result_rule (cacheAfter10 r) = r) /\
  let active := omap (checkRule unit tt noSkip cacheAfter10) [ruleGlobal; ruleBurst] in
  match middleware unit tt noSkip cacheAfter10 [ruleGlobal; ruleBurst] with
  | NextNoRule => active = []
  | Blocked b =>
      (allowed b = false /\ b ∈ active /\
       exists pre post, [ruleGlobal; ruleBurst] = pre ++ result_rule b :: post /\
         checkRule unit tt noSkip cacheAfter10 (result_rule b) = Some b /\
         forall r x, r ∈ pre -> checkRule unit tt noSkip cacheAfter10 r = Some x ->
                     allowed x = true)
  | Passed w act =>
      (act = active /\ w ∈ act /\ (forall x, x ∈ act -> allowed x = true) /\
       forall x, x ∈ act -> maxRequests (result_rule w) <= maxRequests (result_rule x))
  end.
Proof.
  split; [intros r; reflexivity|].
  apply (middleware_first_deny_or_tightest tt noSkip cacheAfter10 [ruleGlobal; ruleBurst]).
  intros r; reflexivity.
Defined.

End ComposeWitness.

Lemma aligned_end_gt (now w : Z) : 0 < w -> now < now / w * w + w.
Proof.
  intros Hw. pose proof (Z.mod_pos_bound now w Hw). pose proof (Z.div_mod now w).
  lia.
Qed.

Module CacheFacts.

(** C3 (amended).  The store call reads the clock at [now];
    [buildResult] reads [Date.now()] again, at [nowResult], after the
    awaited store call.  A decision built from a store result
    [(count, resetTime)] has [remainingRequests = max(0, maxRequests -
    count)], no [retryAfter] when allowed and [ceil((resetTime -
    nowResult)/1000)] when denied, [resetTime] copied from the store
    result, and on denial [resetTime > now], the store's reading.  This
    holds for every store path: the sliding script, the fixed-window
    script, the plain fallback, the observation paths, and the in-memory
    counter. *)
Theorem buildResult_decision (f : fault) (z : ZSet.db) (s : sdb) (lc : localCache)
    (key : jstr) (rule : RateLimitRule) (now nowResult : Z) (tok : jstr) :
  0 < windowMs rule ->
  (forall increment : bool,
     let data := fst (snd (slidingWindowCheckTS f z s key rule increment now tok)) in
     let ok := snd (snd (slidingWindowCheckTS f z s key rule increment now tok)) in
     let d := buildResult data rule ok nowResult in
     allowed d = ok /\ result_rule d = rule /\
     totalRequests (info d) = count data /\
     remainingRequests (info d) = Z.max 0 (maxRequests rule - count data) /\
     infoResetTime (info d) = resetTime data /\
     retryAfter (info d) =
       (if ok then None else Some (ceil_div (resetTime data - nowResult) 1000)) /\
     (ok = false -> now < resetTime data)) /\
  (let lc' := fst (checkRateLimitInMemoryAt lc key rule now nowResult) in
   let d := snd (checkRateLimitInMemoryAt lc key rule now nowResult) in
   exists data, lc' !! key = Some data /\
     result_rule d = rule /\
     totalRequests (info d) = count data /\
     remainingRequests (info d) = Z.max 0 (maxRequests rule - count data) /\
     infoResetTime (info d) = resetTime data /\
     retryAfter (info d) =
       (if allowed d then None else Some (ceil_div (resetTime data - nowResult) 1000)) /\
     (allowed d = false -> now < resetTime data)).
Proof.
  intros Hw. pose proof (aligned_end_gt now _ Hw) as Hal.
  split.
  - intros increment data ok d. subst d.
    assert (Hgt : now < resetTime data).
    { subst data ok.
      destruct f; [|destruct increment..].
      - unfold slidingWindowCheckTS, Sliding.slidingWindowCheck, Sliding.script.
        repeat case_match; simplify_eq; simpl; lia.
      - unfold slidingWindowCheckTS, Fixed.incrementCounterFixedWindow, Fixed.script.
        repeat case_match; simplify_eq; simpl in *; lia.
      - unfold slidingWindowCheckTS, Fixed.getCurrentCountFixedWindow.
        repeat case_match; simplify_eq; simpl in *; lia.
      - unfold slidingWindowCheckTS, Fixed.incrementCounterFallback.
        repeat case_match; simplify_eq; simpl in *; lia.
      - unfold slidingWindowCheckTS, Fixed.getCurrentCountFixedWindow.
        repeat case_match; simplify_eq; simpl in *; lia. }
    unfold buildResult; simpl.
    repeat split; auto.
  - unfold checkRateLimitInMemoryAt. cbv zeta. simpl fst; simpl snd.
    eexists. rewrite lookup_insert_eq. split; [reflexivity|].
    unfold buildResult; simpl.
    repeat split; auto.
    intros _. repeat case_match; simpl in *; lia.
Qed.

(** C3 as first stated fails: [resetTime > now] on denial holds for the
    store's clock reading, not for the one [buildResult] uses.  The
    fixed-window path reads the store at 1999 ms; the aligned window ends
    at 2000 ms and the counter is full, so the request is denied.
    [buildResult] runs at 2001 ms: [resetTime] is in the past and
    [retryAfter] is 0. *)
Lemma buildResult_denial_after_reset :
  let rule := mkRule (js "api") 1000 1 None in
  let r := slidingWindowCheckTS SlidingScriptFails ∅ {[js "k" := mkEntry 1 2000 1500]}
             (js "k") rule true 1999 (js "t") in
  let d := buildResult (fst (snd r)) rule (snd (snd r)) 2001 in
  allowed d = false /\
  infoResetTime (info d) = 2000 /\
  retryAfter (info d) = Some 0 /\
  ~ (2001 < infoResetTime (info d)).
Proof.
  vm_compute. split; [reflexivity|]. split; [reflexivity|]. split; [reflexivity|].
  discriminate.
Qed.

End CacheFacts.

Module CacheWitness.
Import CacheFacts.

(** A one-second rule, an empty store, the store read at 5000 ms and the
    result built at 5002 ms. *)
Lemma buildResult_decision_witness :
  0 < windowMs (mkRule (js "api") 1000 2 None) /\
  (forall increment : bool,
     let data := fst (snd (slidingWindowCheckTS StoreOk ∅ ∅ (js "k")
                            (mkRule (js "api") 1000 2 None) increment 5000 (js "t"))) in
     let ok := snd (snd (slidingWindowCheckTS StoreOk ∅ ∅ (js "k")
                            (mkRule (js "api") 1000 2 None) increment 5000 (js "t"))) in
     let d := buildResult data (mkRule (js "api") 1000 2 None) ok 5002 in
     allowed d = ok /\ result_rule d = mkRule (js "api") 1000 2 None /\
     totalRequests (info d) = count data /\
     remainingRequests (info d) = Z.max 0 (maxRequests (mkRule (js "api") 1000 2 None) - count data) /\
     infoResetTime (info d) = resetTime data /\
     retryAfter (info d) = (if ok then None else Some (ceil_div (resetTime data - 5002) 1000)) /\
     (ok = false -> 5000 < resetTime data)) /\
  (let lc' := fst (checkRateLimitInMemoryAt ∅ (js "k") (mkRule (js "api") 1000 2 None) 5000 5002) in
   let d := snd (checkRateLimitInMemoryAt ∅ (js "k") (mkRule (js "api") 1000 2 None) 5000 5002) in
   exists data, lc' !! js "k" = Some data /\
     result_rule d = mkRule (js "api") 1000 2 None /\
     totalRequests (info d) = count data /\
     remainingRequests (info d) = Z.max 0 (maxRequests (mkRule (js "api") 1000 2 None) - count data) /\
     infoResetTime (info d) = resetTime data /\
     retryAfter (info d) =
       (if allowed d then None else Some (ceil_div (resetTime data - 5002) 1000)) /\
     (allowed d = false -> 5000 < resetTime data)).
Proof.
  split; [simpl; lia|].
  apply (buildResult_decision StoreOk ∅ ∅ ∅ (js "k") (mkRule (js "api") 1000 2 None)
           5000 5002 (js "t")).
  simpl; lia.
Defined.

End CacheWitness.

Module BreakerFacts.
Import Breaker.

Definition inv (thr to : Z) (cb : CircuitBreaker) : Prop :=
  failureThreshold cb = thr /\ recoveryTimeout cb = to /\
  (state cb = CLOSED \/ (state cb = OPEN /\ thr <= failures cb)).

Lemma execute_inv (thr to now : Z) (cb : CircuitBreaker) (op : attempt unit) :
  inv thr to cb -> inv thr to (fst (fst (execute cb now op))).
Proof.
  destruct cb as [fl lt st th rt]; unfold inv; simpl.
  intros (-> & -> & Hst).
  unfold execute, guard; simpl.
  destruct Hst as [-> | [-> Hle]]; simpl.
  - destruct op; simpl; [auto|].
    repeat split. destruct (fl + 1 >=? thr) eqn:E; zbool;
      [right; split; [reflexivity|lia]|left; reflexivity].
  - destruct (now - lt >? to) eqn:Et; simpl.
    + destruct op; simpl; [auto|].
      repeat split. right. destruct (fl + 1 >=? thr) eqn:E; zbool; [split; [reflexivity|lia]|lia].
    + auto.
Qed.

Lemma run_inv (thr to : Z) (calls : list (Z * bool)) (cb : CircuitBreaker) :
  inv thr to cb -> inv thr to (run cb calls).
Proof.
  revert cb; induction calls as [|[now ok] rest IH]; intros cb H; simpl; [done|].
  pose proof (execute_inv thr to now cb (if ok then Returns tt else Throws) H) as H1.
  destruct (execute cb now _) as [[cb' b] r]. simpl in H1. by apply IH.
Qed.

(** C4.  After any sequence of calls starting from a fresh breaker, the
    breaker is CLOSED or OPEN with [failures >= failureThreshold], and the
    next call follows the state machine: in CLOSED a success resets
    [failures] to 0 and stays CLOSED, a failure increments [failures],
    records [lastFailureTime] and opens once [failures] reaches the
    threshold; in OPEN with [now - lastFailureTime <= recoveryTimeout] the
    operation is not invoked, the fallback is returned and the breaker is
    unchanged; in OPEN after the timeout the breaker goes HALF_OPEN, the
    operation is invoked, and success yields CLOSED, failure OPEN. *)
Theorem breaker_state_machine (thr to : Z) (calls : list (Z * bool)) (now : Z) :
  let cb := run (newCircuitBreaker thr to) calls in
  failureThreshold cb = thr /\ recoveryTimeout cb = to /\
  match state cb with
  | CLOSED =>
      execute cb now (Returns tt) = (mkCB 0 (lastFailureTime cb) CLOSED thr to, true, Primary tt) /\
      execute cb now (@Throws unit) =
        (mkCB (failures cb + 1) now (if failures cb + 1 >=? thr then OPEN else CLOSED) thr to,
         true, Fallback)
  | OPEN =>
      thr <= failures cb /\
      (now - lastFailureTime cb <= to ->
         forall op : attempt unit, execute cb now op = (cb, false, Fallback)) /\
      (to < now - lastFailureTime cb ->
         guard cb now = (mkCB (failures cb) (lastFailureTime cb) HALF_OPEN thr to, true) /\
         execute cb now (Returns tt) = (mkCB 0 (lastFailureTime cb) CLOSED thr to, true, Primary tt) /\
         execute cb now (@Throws unit) = (mkCB (failures cb + 1) now OPEN thr to, true, Fallback))
  | HALF_OPEN => False
  end.
Proof.
  intros cb.
  assert (H : inv thr to cb) by (apply run_inv; unfold inv; simpl; auto).
  clearbody cb. destruct cb as [fl lt st th rt]; unfold inv in H; simpl in H.
  destruct H as (-> & -> & Hst). simpl. split; [done|split; [done|]].
  destruct Hst as [-> | [-> Hle]].
  - unfold execute, guard, onSuccess, onFailure; simpl. auto.
  - split; [exact Hle|]. split.
    + intros Hto op. unfold execute, guard; simpl.
      destruct (now - lt >? to) eqn:Et; zbool; [lia|reflexivity].
    + intros Hto. unfold execute, guard, onSuccess, onFailure; simpl.
      destruct (now - lt >? to) eqn:Et; zbool; [|lia]. simpl.
      repeat split. destruct (fl + 1 >=? thr) eqn:E; zbool; [reflexivity|lia].
Qed.

End BreakerFacts.

Module FailOpenFacts.

(** C5.  When the breaker sends [checkRateLimit] to its fallback (the
    breaker is open, or the store operation throws) and the in-memory
    fallback is disabled, the result is fail-open: allowed, [maxRequests]
    remaining, no request counted, [resetTime = now + windowMs] and no
    [retryAfter]. *)
Theorem checkRateLimit_fail_open (cs : CacheState) (key : jstr) (rule : RateLimitRule)
    (now : Z) (requestId : jstr) (f : fault) (primaryThrows : bool) :
  enableInMemoryFallback cs = false ->
  checkRateLimitRoute cs now primaryThrows = false ->
  let r := snd (checkRateLimit cs key rule now requestId f primaryThrows) in
  r = buildDefaultResult rule true now /\
  allowed r = true /\ result_rule r = rule /\
  remainingRequests (info r) = maxRequests rule /\
  totalRequests (info r) = 0 /\
  infoResetTime (info r) = now + windowMs rule /\
  retryAfter (info r) = None.
Proof.
  intros Hen Hroute r.
  assert (Hr : r = buildDefaultResult rule true now).
  { subst r. unfold checkRateLimitRoute, checkRateLimit in *.
    unfold Breaker.execute in *.
    destruct (Breaker.guard (breaker cs) now) as [cb1 go].
    destruct go, primaryThrows; simpl in *; rewrite ?Hen; try reflexivity.
    - destruct (slidingWindowCheckTS _ _ _ _ _ _ _ _) as [[z' s'] [data ok]].
      simpl in Hroute. discriminate. }
  rewrite Hr. unfold buildDefaultResult; simpl. repeat split.
Qed.

End FailOpenFacts.

Module FailOpenWitness.
Import FailOpenFacts.

(** An open breaker that has not reached its recovery timeout. *)
Lemma checkRateLimit_fail_open_witness :
  let cs := mkCache ∅ ∅ ∅ (Breaker.mkCB 5 1000 Breaker.OPEN 5 30000) false in
  enableInMemoryFallback cs = false /\
  checkRateLimitRoute cs 2000 false = false /\
  let r := snd (checkRateLimit cs (js "k") (mkRule (js "api") 1000 2 None) 2000 (js "t") StoreOk false) in
  r = buildDefaultResult (mkRule (js "api") 1000 2 None) true 2000 /\
  allowed r = true /\ result_rule r = mkRule (js "api") 1000 2 None /\
  remainingRequests (info r) = maxRequests (mkRule (js "api") 1000 2 None) /\
  totalRequests (info r) = 0 /\
  infoResetTime (info r) = 2000 + windowMs (mkRule (js "api") 1000 2 None) /\
  retryAfter (info r) = None.
Proof.
  intros cs. split; [reflexivity|]. split; [vm_compute; reflexivity|].
  apply (checkRateLimit_fail_open cs (js "k") (mkRule (js "api") 1000 2 None) 2000 (js "t") StoreOk false);
    vm_compute; reflexivity.
Defined.

End FailOpenWitness.

Module KeyFacts.
Import Keys.

Lemma first_sep (sep : Z) (a b x y : list Z) :
  sep ∉ a -> sep ∉ b -> a ++ sep :: x = b ++ sep :: y -> a = b /\ x = y.
Proof.
  revert b; induction a as [|c a IH]; intros b Ha Hb Heq; destruct b as [|c' b]; simpl in *.
  - by injection Heq.
  - injection Heq as -> _. exfalso; apply Hb; left.
  - injection Heq as <- _. exfalso; apply Ha; left.
  - injection Heq as -> Heq.
    destruct (IH b) as [-> ->]; auto.
    + intros H; apply Ha; by right.
    + intros H; apply Hb; by right.
Qed.

Lemma last_sep (sep : Z) (x y a b : list Z) :
  sep ∉ a -> sep ∉ b -> x ++ sep :: a = y ++ sep :: b -> x = y /\ a = b.
Proof.
  intros Ha Hb Heq.
  apply (f_equal (@rev Z)) in Heq.
  rewrite !rev_app_distr in Heq. simpl in Heq. rewrite <- !app_assoc in Heq. simpl in Heq.
  apply first_sep in Heq as [Hab Hxy].
  - split; [rewrite <- (rev_involutive x), <- (rev_involutive y); by rewrite Hxy|].
    rewrite <- (rev_involutive a), <- (rev_involutive b); by rewrite Hab.
  - intros H; apply Ha. apply list_elem_of_In, in_rev, list_elem_of_In, H.
  - intros H; apply Hb. apply list_elem_of_In, in_rev, list_elem_of_In, H.
Qed.

Lemma digitChar_colon (d : Z) : digitChar d <> 58.
Proof. unfold digitChar. destruct (d <? 10) eqn:E; zbool; lia. Qed.

Lemma digitsAux_colon (fuel : nat) (b n : Z) : 58 ∉ digitsAux fuel b n.
Proof.
  revert n; induction fuel as [|fuel IH]; intros n; simpl; [apply not_elem_of_nil|].
  rewrite elem_of_app, list_elem_of_singleton. intros [H|H].
  - destruct (n <? b); [by apply not_elem_of_nil in H|by apply (IH (n / b))].
  - by apply (digitChar_colon (n mod b)).
Qed.

Lemma hashString_colon (s : jstr) : 58 ∉ hashString s.
Proof. apply digitsAux_colon. Qed.

Lemma sanitizeKeyId_colon (s : jstr) : 58 ∉ sanitizeKeyId s.
Proof.
  unfold sanitizeKeyId. rewrite list_elem_of_fmap. intros (c & Hc & _).
  destruct (isKeyChar c) eqn:E; [|discriminate]. subst c. discriminate.
Qed.

(** The three segments of a key are recovered from it: the last two
    colons delimit the hash, which, like the sanitized identifier, holds
    no colon. *)
Lemma generateRateLimitKey_split (i1 i2 : jstr) (r1 r2 : RateLimitRule) :
  generateRateLimitKey i1 r1 = generateRateLimitKey i2 r2 ->
  id r1 = id r2 /\
  hashString (id r1 ++ numberToString (windowMs r1) ++ numberToString (maxRequests r1)) =
  hashString (id r2 ++ numberToString (windowMs r2) ++ numberToString (maxRequests r2)) /\
  sanitizeKeyId i1 = sanitizeKeyId i2.
Proof.
  unfold generateRateLimitKey. cbv zeta.
  set (h1 := hashString _). set (h2 := hashString _).
  change (js ":") with [58]. change (js "rl:") with [114; 108; 58].
  intros Heq.
  assert (Hre : forall a h s, [114; 108; 58] ++ a ++ [58] ++ h ++ [58] ++ s =
                (([114; 108; 58] ++ a) ++ 58 :: h) ++ 58 :: s).
  { intros. by rewrite <- !app_assoc. }
  rewrite !Hre in Heq.
  apply last_sep in Heq as [Heq Hs]; [|apply sanitizeKeyId_colon..].
  apply last_sep in Heq as [Heq Hh]; [|apply hashString_colon..].
  apply app_inv_head in Heq. auto.
Qed.

End KeyFacts.

Module KeyCollision.
Import Keys KeyFacts.

(** C6.  What [generateRateLimitKey] computes: for a fixed client
    identifier, two rules get the same key exactly when they have the same
    id and their hash inputs [id + windowMs + maxRequests] hash to the
    same digest.  Distinct ids always give distinct keys.  For rules with
    the same id the hash input is the two numbers written side by side
    with no delimiter, so distinct configurations can share an input. *)
Theorem generateRateLimitKey_eq_iff (identifier : jstr) (r1 r2 : RateLimitRule) :
  generateRateLimitKey identifier r1 = generateRateLimitKey identifier r2 <->
  id r1 = id r2 /\
  hashString (id r1 ++ numberToString (windowMs r1) ++ numberToString (maxRequests r1)) =
  hashString (id r2 ++ numberToString (windowMs r2) ++ numberToString (maxRequests r2)).
Proof.
  split.
  - intros H. apply generateRateLimitKey_split in H as (? & ? & _). auto.
  - intros [Hid Hh]. unfold generateRateLimitKey. cbv zeta. by rewrite Hh, Hid.
Qed.

(** C6 fails in the code: the configurations [(api, 1000 ms, 11)] and
    [(api, 10001 ms, 1)] differ, yet both hash the string ["api100011"]
    because the numbers are concatenated without a delimiter, so they
    share every key. *)
Lemma generateRateLimitKey_collision :
  (id (mkRule (js "api") 1000 11 None), windowMs (mkRule (js "api") 1000 11 None),
   maxRequests (mkRule (js "api") 1000 11 None)) <>
  (id (mkRule (js "api") 10001 1 None), windowMs (mkRule (js "api") 10001 1 None),
   maxRequests (mkRule (js "api") 10001 1 None)) /\
  generateRateLimitKey (js "1.2.3.4") (mkRule (js "api") 1000 11 None) =
  generateRateLimitKey (js "1.2.3.4") (mkRule (js "api") 10001 1 None).
Proof. split; [simpl; congruence|vm_compute; reflexivity]. Qed.

End KeyCollision.

Module FallbackFacts.

Definition related (rule : RateLimitRule) (key : jstr) (d : sdb) (lc : localCache) : Prop :=
  match d !! key, lc !! key with
  | None, None => True
  | Some ef, Some em =>
      resetTime ef = resetTime em /\
      count ef = Z.min (count em) (Z.max 0 (maxRequests rule)) /\ 0 <= count em
  | _, _ => False
  end.

Definition agree (rule : RateLimitRule) (rf : CacheEntry * bool) (rm : RateLimitResult) : Prop :=
  snd rf = allowed rm /\
  resetTime (fst rf) = infoResetTime (info rm) /\
  count (fst rf) = Z.min (totalRequests (info rm)) (Z.max 0 (maxRequests rule)) /\
  (snd rf = true -> count (fst rf) = totalRequests (info rm)) /\
  (snd rf = false -> count (fst rf) < totalRequests (info rm)).

Lemma step_related (rule : RateLimitRule) (key : jstr) (d : sdb) (lc : localCache) (now : Z) :
  rule_algorithm rule <> Some Sliding ->
  related rule key d lc ->
  related rule key (fst (Fixed.incrementCounterFixedWindow d key rule now))
                   (fst (checkRateLimitInMemory lc key rule now)) /\
  agree rule (snd (Fixed.incrementCounterFixedWindow d key rule now))
             (snd (checkRateLimitInMemory lc key rule now)).
Proof.
  intros Halg Hrel.
  unfold related, agree in *.
  unfold Fixed.incrementCounterFixedWindow, Fixed.script, checkRateLimitInMemory,
    checkRateLimitInMemoryAt, buildResult.
  destruct (decide (rule_algorithm rule = Some Sliding)) as [|_]; [done|].
  destruct (d !! key) as [ef|] eqn:Ed, (lc !! key) as [em|] eqn:Em; try done.
  - destruct Hrel as (Hrt & Hc & Hpos). rewrite <- Hrt.
    destruct (now >=? resetTime ef) eqn:Er; cbn [fst snd count resetTime createdAt].
    + destruct (0 >=? maxRequests rule) eqn:Ec; cbn [fst snd count resetTime createdAt];
        rewrite !lookup_insert_eq; cbn [fst snd count resetTime createdAt info allowed
        totalRequests infoResetTime];
        zbool; (repeat split); try lia;
        destruct (_ <=? _) eqn:E'; zbool; try lia; try discriminate.
    + destruct (count ef >=? maxRequests rule) eqn:Ec; cbn [fst snd count resetTime createdAt];
        rewrite !lookup_insert_eq; cbn [fst snd count resetTime createdAt info allowed
        totalRequests infoResetTime];
        zbool; (repeat split); try lia;
        destruct (_ <=? _) eqn:E'; zbool; try lia; try discriminate.
  - cbn [fst snd count resetTime createdAt].
    destruct (now >=? now / windowMs rule * windowMs rule + windowMs rule);
    cbn [fst snd count resetTime createdAt];
    destruct (0 >=? maxRequests rule) eqn:Ec; cbn [fst snd count resetTime createdAt];
        rewrite !lookup_insert_eq; cbn [fst snd count resetTime createdAt info allowed
        totalRequests infoResetTime];
        zbool; (repeat split); try lia;
        destruct (_ <=? _) eqn:E'; zbool; try lia; try discriminate.
Qed.

Lemma runs_agree (rule : RateLimitRule) (key : jstr) (ts : list Z) (d : sdb) (lc : localCache) :
  rule_algorithm rule <> Some Sliding ->
  related rule key d lc ->
  Forall2 (agree rule) (runFixed d key rule ts) (runMem lc key rule ts).
Proof.
  intros Halg. revert d lc; induction ts as [|now ts IH]; intros d lc Hrel;
    cbn [runFixed runMem]; [constructor|].
  pose proof (step_related rule key d lc now Halg Hrel) as [Hr Ha].
  destruct (Fixed.incrementCounterFixedWindow d key rule now) as [d' rf].
  destruct (checkRateLimitInMemory lc key rule now) as [lc' rm].
  constructor; [exact Ha|]. by apply IH.
Qed.

End FallbackFacts.

Module FallbackRefinement.
Import FallbackFacts.

(** C7 (amended).  For a rule that is not a sliding-window rule, from
    empty stores, the in-memory fallback and the fixed-window path give,
    at every arrival, the same [allowed] and the same [resetTime]; on an
    admitted arrival the same count; on a denied arrival the fixed-window
    path does not increment, while the in-memory counter does, so its
    count is larger.  In general the fixed-window count is the in-memory
    count capped at [max(0, maxRequests)].  For every rule, one in-memory
    check stores an entry that is (re)initialised with count 1 when there
    is none or [now] has reached its [resetTime], with [resetTime] equal
    to [now + windowMs] for a sliding-window rule and to the aligned
    window end otherwise; else the count goes up by one and [resetTime]
    is kept.  The check admits exactly when the stored count is at most
    [maxRequests]. *)
Theorem inMemory_vs_fixedWindow (rule : RateLimitRule) (key : jstr) (ts : list Z) :
  (rule_algorithm rule <> Some Sliding ->
   Forall2 (fun rf rm =>
      snd rf = allowed rm /\
      resetTime (fst rf) = infoResetTime (info rm) /\
      count (fst rf) = Z.min (totalRequests (info rm)) (Z.max 0 (maxRequests rule)) /\
      (snd rf = true -> count (fst rf) = totalRequests (info rm)) /\
      (snd rf = false -> count (fst rf) < totalRequests (info rm)))
    (runFixed ∅ key rule ts) (runMem ∅ key rule ts)) /\
  (forall (lc : localCache) (now : Z),
     let r := snd (checkRateLimitInMemory lc key rule now) in
     exists data, fst (checkRateLimitInMemory lc key rule now) !! key = Some data /\
     (forall ex, lc !! key = Some ex -> now < resetTime ex ->
        count data = count ex + 1 /\ resetTime data = resetTime ex) /\
     ((lc !! key = None \/ exists ex, lc !! key = Some ex /\ resetTime ex <= now) ->
        count data = 1 /\
        resetTime data = (if decide (rule_algorithm rule = Some Sliding) then now + windowMs rule
                          else now / windowMs rule * windowMs rule + windowMs rule)) /\
     totalRequests (info r) = count data /\
     infoResetTime (info r) = resetTime data /\
     allowed r = (count data <=? maxRequests rule)).
Proof.
  split.
  - intros Halg. apply (runs_agree rule key ts ∅ ∅ Halg). unfold related. by rewrite !lookup_empty.
  - intros lc now r. subst r.
    unfold checkRateLimitInMemory, checkRateLimitInMemoryAt. cbv zeta. cbn [fst snd].
    eexists. rewrite lookup_insert_eq. split; [reflexivity|].
    split; [|split; [|split; [reflexivity|split; reflexivity]]].
    + intros ex Hex Hlt. rewrite Hex. destruct (Z.geb_spec now (resetTime ex)); [lia|done].
    + intros [Hn|(ex & Hex & Hle)].
      * by rewrite Hn.
      * rewrite Hex. destruct (Z.geb_spec now (resetTime ex)); [done|lia].
Qed.

(** C7 fails: with one request per second allowed, a second arrival in
    the same second is denied by both, but the fixed-window path reports
    count 1 and keeps it, while the in-memory fallback reports and stores
    count 2.  For a sliding-window rule the two reset times differ even
    on the first arrival: 6000 ms for the aligned window, 6500 ms in
    memory. *)
Lemma inMemory_counts_denied_arrival :
  map (fun rf => (count (fst rf), snd rf, resetTime (fst rf)))
      (runFixed ∅ (js "k") (mkRule (js "api") 1000 1 None) [5000; 5001]) =
    [(1, true, 6000); (1, false, 6000)] /\
  map (fun rm => (totalRequests (info rm), allowed rm, infoResetTime (info rm)))
      (runMem ∅ (js "k") (mkRule (js "api") 1000 1 None) [5000; 5001]) =
    [(1, true, 6000); (2, false, 6000)] /\
  map (fun rf => resetTime (fst rf))
      (runFixed ∅ (js "k") (mkRule (js "api") 1000 1 (Some Sliding)) [5500]) = [6000] /\
  map (fun rm => infoResetTime (info rm))
      (runMem ∅ (js "k") (mkRule (js "api") 1000 1 (Some Sliding)) [5500]) = [6500].
Proof. split; [|split; [|split]]; vm_compute; reflexivity. Qed.

End FallbackRefinement.

Module FallbackWitness.
Import FallbackRefinement.

Lemma inMemory_vs_fixedWindow_witness :
  rule_algorithm (mkRule (js "api") 1000 1 None) <> Some Sliding /\
  Forall2 (fun rf rm =>
      snd rf = allowed rm /\
      resetTime (fst rf) = infoResetTime (info rm) /\
      count (fst rf) = Z.min (totalRequests (info rm)) (Z.max 0 (maxRequests (mkRule (js "api") 1000 1 None))) /\
      (snd rf = true -> count (fst rf) = totalRequests (info rm)) /\
      (snd rf = false -> count (fst rf) < totalRequests (info rm)))
    (runFixed ∅ (js "k") (mkRule (js "api") 1000 1 None) [5000; 5001])
    (runMem ∅ (js "k") (mkRule (js "api") 1000 1 None) [5000; 5001]).
Proof.
  assert (Halg : rule_algorithm (mkRule (js "api") 1000 1 None) <> Some Sliding)
    by (simpl; discriminate).
  split; [exact Halg|].
  exact (proj1 (inMemory_vs_fixedWindow (mkRule (js "api") 1000 1 None) (js "k") [5000; 5001])
           Halg).
Defined.

End FallbackWitness.

Module IdentFacts.
Import Keys Ident.

Lemma sanitizeIpAddress_eq (x : jstr) :
  sanitizeIpAddress x =
  match firstn 45 (stripControl x) with [] => js "unknown" | t => t end.
Proof.
  unfold sanitizeIpAddress. destruct (firstn 45 (stripControl x)) as [|c t]; [reflexivity|].
  by destruct (isIPv4 _ || isIPv6 _).
Qed.

Lemma getClientIdentifier_chosen (req : Request) :
  getClientIdentifier req = sanitizeIpAddress (fst (chosen req)) \/
  (snd (chosen req) = false /\ exists port, port <> 0 /\ remotePort req = Some port /\
     getClientIdentifier req = sanitizeIpAddress (fst (chosen req)) ++ js ":" ++ numberToString port).
Proof.
  unfold getClientIdentifier, chosen.
  repeat case_match; cbn [fst snd];
    first [left; reflexivity
          |right; split; [reflexivity|]; eexists; split; [|split; [reflexivity|reflexivity]];
           apply Z.eqb_neq; assumption].
Qed.

Lemma loopback_decide (x : jstr) :
  bool_decide (x ∈ [js "::1"; js "127.0.0.1"; js "localhost"]) =
  bool_decide (x = js "::1") || bool_decide (x = js "127.0.0.1") || bool_decide (x = js "localhost").
Proof. repeat case_bool_decide; set_solver. Qed.

(** [getClientIdentifier] in closed form over the chosen string. *)
Lemma getClientIdentifier_exact (req : Request) :
  getClientIdentifier req =
  match remotePort req with
  | Some port =>
      if negb (snd (chosen req))
         && negb (bool_decide (sanitizeIpAddress (fst (chosen req))
                                 ∈ [js "::1"; js "127.0.0.1"; js "localhost"]))
         && negb (port =? 0)
      then sanitizeIpAddress (fst (chosen req)) ++ js ":" ++ Keys.numberToString port
      else sanitizeIpAddress (fst (chosen req))
  | None => sanitizeIpAddress (fst (chosen req))
  end.
Proof.
  rewrite loopback_decide.
  unfold getClientIdentifier, chosen.
  destruct (present (xForwardedFor req));
    [cbn [fst snd negb andb]; by destruct (remotePort req)|].
  destruct (present (xRealIp req));
    [cbn [fst snd negb andb]; by destruct (remotePort req)|].
  destruct (present (xClientIp req));
    [cbn [fst snd negb andb]; by destruct (remotePort req)|].
  destruct (present (cfConnectingIp req));
    [cbn [fst snd negb andb]; by destruct (remotePort req)|].
  cbn [fst snd negb andb].
  set (x := sanitizeIpAddress _).
  destruct (bool_decide (x = js "::1") || _ || _); cbn [negb andb];
    destruct (remotePort req) as [port|]; try reflexivity.
  by destruct (port =? 0).
Qed.

Lemma digitsAux_decimal (fuel : nat) (b n c : Z) :
  0 < b <= 10 -> c ∈ digitsAux fuel b n -> 48 <= c <= 57.
Proof.
  intros Hb. revert n; induction fuel as [|fuel IH]; intros n; simpl;
    [intros H; by apply not_elem_of_nil in H|].
  rewrite elem_of_app, list_elem_of_singleton. intros [H| ->].
  - destruct (n <? b); [by apply not_elem_of_nil in H|by apply (IH (n / b))].
  - pose proof (Z.mod_pos_bound n b ltac:(lia)). unfold digitChar.
    destruct (n mod b <? 10) eqn:E; zbool; lia.
Qed.

Lemma numberToString_chars (n c : Z) :
  c ∈ numberToString n -> c = 45 \/ 48 <= c <= 57.
Proof.
  unfold numberToString, toStringRadix. destruct (n <? 0).
  - rewrite elem_of_app. intros [H|H].
    + left. by apply list_elem_of_singleton in H.
    + right. eapply digitsAux_decimal; [|exact H]. lia.
  - intros H. right. eapply digitsAux_decimal; [|exact H]. lia.
Qed.

Lemma sanitizeIpAddress_noControl (x : jstr) (c : Z) :
  c ∈ sanitizeIpAddress x -> isControl c = false.
Proof.
  rewrite sanitizeIpAddress_eq. destruct (firstn 45 (stripControl x)) as [|d t] eqn:E.
  - intros H. repeat (apply elem_of_cons in H as [->|H]; [reflexivity|]).
    by apply not_elem_of_nil in H.
  - rewrite <- E. intros H. apply list_elem_of_In in H.
    assert (H' : In c (stripControl x)).
    { rewrite <- (firstn_skipn 45 (stripControl x)). apply in_or_app. by left. }
    clear H. rename H' into H. unfold stripControl in H. apply filter_In in H as [_ H]. by apply negb_true_iff.
Qed.

Lemma octet_chars (p : jstr) (c : Z) : isOctet p = true -> c ∈ p -> isKeyChar c = true.
Proof.
  unfold isOctet, isDigit, isKeyChar.
  destruct p as [|d1 [|d2 [|d3 [|d4 p]]]]; try discriminate; intros Ho Hc;
    repeat (apply elem_of_cons in Hc as [->|Hc]); try (by apply not_elem_of_nil in Hc);
    repeat (apply andb_true_iff in Ho as [Ho ?] || apply orb_true_iff in Ho as [Ho|Ho]);
    zbool; repeat match goal with H : (_ =? _) = true |- _ => apply Z.eqb_eq in H end;
    repeat (apply orb_true_iff; left); apply andb_true_iff; split; apply Z.leb_le; lia.
Qed.

Lemma splitOn_elem (sep c : Z) (s : jstr) :
  c ∈ s -> c <> sep -> exists p, p ∈ splitOn sep s /\ c ∈ p.
Proof.
  induction s as [|c' r IH]; intros Hc Hne; [by apply not_elem_of_nil in Hc|].
  simpl. destruct (c' =? sep) eqn:Es.
  - apply Z.eqb_eq in Es. apply elem_of_cons in Hc as [->|Hc]; [done|].
    destruct (IH Hc Hne) as (p & Hp & Hcp). exists p. split; [by right|done].
  - apply elem_of_cons in Hc as [<-|Hc].
    + destruct (splitOn sep r) as [|p ps].
      * exists [c]. split; left.
      * exists (c :: p). split; left.
    + destruct (IH Hc Hne) as (p & Hp & Hcp).
      destruct (splitOn sep r) as [|p0 ps]; [by apply not_elem_of_nil in Hp|].
      apply elem_of_cons in Hp as [->|Hp].
      * exists (c' :: p0). split; [left|by right].
      * exists p. split; [by right|done].
Qed.

Lemma isIPv4_keyChars (x : jstr) (c : Z) : isIPv4 x = true -> c ∈ x -> isKeyChar c = true.
Proof.
  intros H4 Hc. destruct (Z.eq_dec c 46) as [->|Hne]; [reflexivity|].
  destruct (splitOn_elem 46 c x Hc Hne) as (p & Hp & Hcp).
  unfold isIPv4 in H4.
  destruct (splitOn 46 x) as [|a [|b [|c' [|d [|e l]]]]]; try discriminate.
  repeat (apply andb_true_iff in H4 as [H4 ?]).
  repeat (apply elem_of_cons in Hp as [->|Hp]; [eapply octet_chars; [|exact Hcp]; assumption|]).
  by apply not_elem_of_nil in Hp.
Qed.

Lemma sanitizeKeyId_id (x : jstr) : (forall c, c ∈ x -> isKeyChar c = true) -> sanitizeKeyId x = x.
Proof.
  unfold sanitizeKeyId. induction x as [|c x IH]; intros H; [reflexivity|].
  simpl. rewrite (H c) by left. f_equal. apply IH. intros c' Hc'. apply H. by right.
Qed.

End IdentFacts.

Module IdentSanitize.
Import Keys Ident IdentFacts.

(** C8 (amended).  Let [t] be the chosen header value or remote address
    with control characters removed and cut to 45 code units, and [s] be
    [t], or ["unknown"] when [t] is empty.  When no forwarding header is
    present, [s] is not [::1], [127.0.0.1] or [localhost], and the
    request has a non-zero remote port, the client identifier is
    [s + ":" + port]; in every other case it is [s].  Only [s] is
    bounded by 45 code units.  [s] is ["unknown"] exactly when [t] is
    empty or is itself ["unknown"].  The identifier holds no control
    character; the sanitized segment of every key holds only characters
    of [A-Za-z0-9._-]; and two distinct IPv4 literals give distinct keys
    for every rule. *)
Theorem getClientIdentifier_sanitized (req : Request) :
  let t := firstn 45 (stripControl (fst (chosen req))) in
  let s := match t with [] => js "unknown" | _ => t end in
  (forall port, snd (chosen req) = false -> s ∉ [js "::1"; js "127.0.0.1"; js "localhost"] ->
     remotePort req = Some port -> port <> 0 ->
     getClientIdentifier req = s ++ js ":" ++ numberToString port) /\
  ((snd (chosen req) = true \/ s ∈ [js "::1"; js "127.0.0.1"; js "localhost"] \/
    remotePort req = None \/ remotePort req = Some 0) ->
     getClientIdentifier req = s) /\
  (length s <= 45)%nat /\
  (s = js "unknown" <-> t = [] \/ t = js "unknown") /\
  (forall c, c ∈ getClientIdentifier req -> isControl c = false) /\
  (forall (identifier : jstr) (c : Z), c ∈ sanitizeKeyId identifier -> isKeyChar c = true) /\
  (forall (x y : jstr) (rule : RateLimitRule),
     isIPv4 x = true -> isIPv4 y = true -> x <> y ->
     generateRateLimitKey x rule <> generateRateLimitKey y rule).
Proof.
  intros t s.
  assert (Hs : sanitizeIpAddress (fst (chosen req)) = s).
  { rewrite sanitizeIpAddress_eq. subst s t. by destruct (firstn 45 _). }
  split.
  { intros port Hh Hl Hp Hz. rewrite getClientIdentifier_exact, Hp, Hh, Hs.
    rewrite bool_decide_eq_false_2 by exact Hl.
    destruct (Z.eqb_spec port 0); [lia|reflexivity]. }
  split.
  { intros Hc. rewrite getClientIdentifier_exact, Hs.
    destruct (remotePort req) as [port|] eqn:Hp; [|reflexivity].
    destruct Hc as [Hh|[Hl|[Hn|Hz]]].
    - by rewrite Hh.
    - rewrite bool_decide_eq_true_2 by exact Hl. by rewrite andb_false_r.
    - done.
    - injection Hz as ->. by rewrite andb_false_r. }
  split.
  { subst s. destruct t as [|c r] eqn:Et; [simpl; lia|].
    rewrite <- Et. subst t. rewrite length_firstn. lia. }
  split.
  { subst s. destruct t as [|c r]; split; auto; intros [H|H]; done. }
  split.
  { intros c Hc. destruct (getClientIdentifier_chosen req) as [H|(_ & port & _ & _ & H)];
      rewrite H in Hc; [eapply sanitizeIpAddress_noControl; exact Hc|].
    apply elem_of_app in Hc as [Hc|Hc]; [eapply sanitizeIpAddress_noControl; exact Hc|].
    apply elem_of_app in Hc as [Hc|Hc].
    - apply list_elem_of_singleton in Hc as ->. reflexivity.
    - apply numberToString_chars in Hc as [->|Hc]; [reflexivity|].
      unfold isControl. apply orb_false_iff; split; apply andb_false_iff;
        [right|left]; apply Z.leb_gt; lia. }
  split.
  { intros identifier c. unfold sanitizeKeyId. rewrite list_elem_of_fmap.
    intros (c' & -> & _). destruct (isKeyChar c') eqn:E; [exact E|reflexivity]. }
  intros x y rule Hx Hy Hne Heq.
  apply KeyFacts.generateRateLimitKey_split in Heq as (_ & _ & Hsan).
  rewrite !sanitizeKeyId_id in Hsan; [done| |].
  - intros c; by apply isIPv4_keyChars.
  - intros c; by apply isIPv4_keyChars.
Qed.

(** C8 fails: a 45-character IPv4-mapped IPv6 remote address with its
    port appended gives a 51-character identifier, and an
    [x-forwarded-for] header ["unknown"] gives ["unknown"] though nothing
    was stripped from it. *)
Lemma getClientIdentifier_long_or_unknown :
  length (getClientIdentifier
            (mkReq None None None None
               (Some (js "0000:0000:0000:0000:0000:ffff:192.168.100.200")) None None
               (Some 54321))) = 51%nat /\
  getClientIdentifier (mkReq (Some (js "unknown")) None None None None None None None)
    = js "unknown" /\
  stripControl (js "unknown") <> [].
Proof. split; [vm_compute; reflexivity|split; [vm_compute; reflexivity|discriminate]]. Qed.

End IdentSanitize.

Module ResetFacts.
Import Reset.

(** C10 (amended).  For a NON-EMPTY [ruleId] that equals no configured
    rule's id, [resetRateLimit] deletes no store key and no local-cache
    entry and only removes the identifier from the throttle map, whatever
    the store's replies.  An empty [ruleId] is falsy and behaves as an
    absent one: every configured rule's key is reset. *)
Theorem resetRateLimit_unknown_rule (delOk : jstr -> bool) (rules : list RateLimitRule)
    (st : LimiterState) (identifier rid : jstr) :
  rid <> [] ->
  Forall (fun r => id r <> rid) rules ->
  let st' := resetRateLimit delOk rules st identifier (Some rid) in
  redisKeys st' = redisKeys st /\
  localEntries st' = localEntries st /\
  throttleMap st' = delete identifier (throttleMap st) /\
  resetRateLimit delOk rules st identifier (Some []) =
    resetRateLimit delOk rules st identifier None.
Proof.
  intros Hne Hall st'. subst st'.
  split; [|split; [|split]]; try reflexivity;
    unfold resetRateLimit, Ident.present; destruct rid as [|c r]; try done;
    destruct (List.find _ rules) as [rule|] eqn:Ef; try reflexivity;
    apply find_some in Ef as [Hin Hid]; apply bool_decide_eq_true in Hid;
    rewrite Forall_forall in Hall; exfalso; exact (Hall rule (proj2 (list_elem_of_In _ _) Hin) Hid).
Qed.

(** C10 fails for the empty [ruleId]: it names no rule, yet, with the
    store answering, the burst rule's key is removed from the store and
    from the local cache. *)
Lemma resetRateLimit_empty_ruleId :
  let k := Keys.generateRateLimitKey (js "1.2.3.4") Examples.ruleBurst in
  let st := mkState {[k]} {[k := mkEntry 1 2000 1000]} ∅ in
  Forall (fun r => id r <> []) [Examples.ruleBurst] /\
  bool_decide (k ∈ redisKeys st) = true /\
  bool_decide (k ∈ redisKeys (resetRateLimit (fun _ => true) [Examples.ruleBurst] st
                                (js "1.2.3.4") (Some []))) = false /\
  localEntries (resetRateLimit (fun _ => true) [Examples.ruleBurst] st (js "1.2.3.4") (Some []))
    !! k = None.
Proof.
  split; [constructor; [discriminate|constructor]|].
  split; [vm_compute; reflexivity|split; vm_compute; reflexivity].
Qed.

End ResetFacts.

Module ResetWitness.
Import Reset ResetFacts.

Lemma resetRateLimit_unknown_rule_witness :
  let rules := [Examples.ruleBurst; Examples.ruleGlobal] in
  let st := mkState {[js "k"]} ∅ {[js "1.2.3.4" := 3]} in
  js "nope" <> [] /\
  Forall (fun r => id r <> js "nope") rules /\
  let st' := resetRateLimit (fun _ => true) rules st (js "1.2.3.4") (Some (js "nope")) in
  redisKeys st' = redisKeys st /\
  localEntries st' = localEntries st /\
  throttleMap st' = delete (js "1.2.3.4") (throttleMap st) /\
  resetRateLimit (fun _ => true) rules st (js "1.2.3.4") (Some []) =
    resetRateLimit (fun _ => true) rules st (js "1.2.3.4") None.
Proof.
  intros rules st.
  assert (H1 : js "nope" <> []) by discriminate.
  assert (H2 : Forall (fun r => id r <> js "nope") rules) by (repeat constructor; discriminate).
  split; [exact H1|]. split; [exact H2|].
  exact (resetRateLimit_unknown_rule (fun _ => true) rules st (js "1.2.3.4") (js "nope") H1 H2).
Defined.

End ResetWitness.

(** ** Further properties of the code around the claims *)
Module SlidingMoreFacts.
Import ZSet Sliding SlidingMore SlidingFacts.

Lemma zrem_other (d : db) k k' m :
  k' <> k -> zrem d k m !! k' = d !! k'.
Proof.
  intros Hne. unfold zrem.
  repeat case_match;
    rewrite ?lookup_delete_ne, ?lookup_insert_ne by congruence; done.
Qed.

Lemma filter_all {A} (P : A -> Prop) `{!forall x, Decision (P x)} (l : list A) :
  (forall x, x ∈ l -> P x) -> filter P l = l.
Proof.
  induction l as [|x l IH]; intros Hall; [done|].
  rewrite filter_cons_True by (apply Hall; left).
  f_equal. apply IH. intros y Hy. apply Hall. by right.
Qed.

Lemma purge_fresh (d : db) k now w tok :
  (forall e, d !! k = Some e -> tok ∉ map fst (zmembers e)) ->
  forall e, zremrangebyscore d k (now - w) !! k = Some e -> tok ∉ map fst (zmembers e).
Proof.
  intros Hf e He. destruct (zremrangebyscore_key d k now w) as [t Ht].
  pose proof (kept_fresh d k now w tok Hf) as Hk.
  rewrite Ht in He. destruct (kept d k now w); [discriminate|].
  injection He as <-. exact Hk.
Qed.

Lemma zcard_zadd_fresh (d : db) k s m :
  (forall e, d !! k = Some e -> m ∉ map fst (zmembers e)) ->
  zcard (zadd d k s m) k = zcard d k + 1.
Proof.
  intros Hf. unfold zadd, zcard.
  destruct (d !! k) as [e|] eqn:He.
  - destruct (decide (m ∈ map fst (zmembers e))) as [Hin|_]; [by destruct (Hf e eq_refl)|].
    rewrite lookup_insert_eq. simpl. rewrite length_app. simpl. lia.
  - rewrite lookup_insert_eq. reflexivity.
Qed.

Lemma zcard_purge (d : db) k now w :
  zcard (zremrangebyscore d k (now - w)) k = Z.of_nat (length (kept d k now w)).
Proof.
  destruct (zremrangebyscore_key d k now w) as [t Ht].
  unfold zcard. rewrite Ht. by destruct (kept d k now w).
Qed.

Lemma expire_missing (d : db) k s : d !! k = None -> expire d k s = d.
Proof. intros H. unfold expire. by rewrite H. Qed.

Lemma kept_window (d : db) k now w m : m ∈ kept d k now w -> now - w < m.2.
Proof.
  unfold kept. destruct (d !! k); [|intros H; by apply not_elem_of_nil in H].
  intros H. by apply list_elem_of_filter in H as [? _].
Qed.

(** The store after a read-only pass of the purge and the TTL refresh. *)
Lemma readScript_state (d : db) key now w rt :
  0 < ceil_div w 1000 ->
  fst (readScript d key (now - w) rt now w) !! key =
    match kept d key now w with [] => None | ks => Some (mkZ ks (Some (ceil_div w 1000))) end /\
  (forall k, k <> key -> fst (readScript d key (now - w) rt now w) !! k = d !! k).
Proof.
  intros Hs. unfold readScript. cbn [fst].
  pose proof (zcard_purge d key now w) as Hc.
  destruct (zremrangebyscore_key d key now w) as [t Ht].
  split.
  - destruct (kept d key now w) as [|m ms] eqn:Ek.
    + rewrite Hc. simpl. exact Ht.
    + rewrite Hc. destruct (Z.ltb_spec 0 (Z.of_nat (length (m :: ms)))); [|simpl in *; lia].
      unfold expire. rewrite Ht. destruct (decide (ceil_div w 1000 <= 0)); [lia|].
      by rewrite lookup_insert_eq.
  - intros k Hk. destruct (0 <? _); rewrite ?expire_other, ?zremrangebyscore_other; auto.
Qed.

(** The store after an admitted check-and-increment. *)
Lemma check_admit_state (d : db) key rule now tok :
  0 < windowMs rule ->
  (forall e, d !! key = Some e -> tok ∉ map fst (zmembers e)) ->
  Z.of_nat (length (kept d key now (windowMs rule))) < maxRequests rule ->
  fst (slidingWindowCheck d key rule true now tok) !! key =
    Some (mkZ (kept d key now (windowMs rule) ++ [(tok, now)])
              (Some (ceil_div (windowMs rule) 1000))) /\
  (forall k, k <> key -> fst (slidingWindowCheck d key rule true now tok) !! k = d !! k).
Proof.
  intros Hw Hf Hlt. pose proof (ceil_div_pos _ Hw) as Hs.
  pose proof (zcard_purge d key now (windowMs rule)) as Hc.
  pose proof (kept_fresh d key now (windowMs rule) tok Hf) as Hk.
  destruct (zremrangebyscore_key d key now (windowMs rule)) as [t Ht].
  unfold slidingWindowCheck, script.
  set (d1 := zremrangebyscore d key (now - windowMs rule)) in *.
  assert (Hother : forall k, k <> key -> d1 !! k = d !! k)
    by (intros; apply zremrangebyscore_other; done).
  clearbody d1. rewrite Hc.
  destruct (Z.ltb_spec (Z.of_nat (length (kept d key now (windowMs rule)))) (maxRequests rule));
    [|lia].
  cbn [andb fst].
  destruct (Z.ltb_spec 0 (Z.of_nat (length (kept d key now (windowMs rule))) + 1)); [|lia].
  split.
  - unfold expire, zadd. rewrite Ht.
    destruct (kept d key now (windowMs rule)) as [|m ms].
    + rewrite lookup_insert_eq. destruct (decide (ceil_div (windowMs rule) 1000 <= 0)); [lia|].
      by rewrite lookup_insert_eq.
    + simpl zmembers. destruct (decide (tok ∈ map fst (m :: ms))); [contradiction|].
      rewrite lookup_insert_eq. destruct (decide (ceil_div (windowMs rule) 1000 <= 0)); [lia|].
      by rewrite lookup_insert_eq.
  - intros k Hk'. rewrite expire_other, zadd_other; auto.
Qed.

Lemma topMember_app_max (ks : list (jstr * Z)) (x : jstr) (s : Z) :
  (forall m, m ∈ ks -> m.2 < s) -> topMember (ks ++ [(x, s)]) = Some (x, s).
Proof.
  induction ks as [|p r IH]; intros H; [reflexivity|].
  simpl. rewrite IH by (intros m Hm; apply H; by right).
  unfold above; simpl. destruct (Z.ltb_spec p.2 s); [reflexivity|].
  pose proof (H p ltac:(left)). lia.
Qed.

(** [revertIncrement] on a set whose newest member was just added. *)
Lemma revertIncrement_state (d : db) k ks tok now w ttl :
  d !! k = Some (mkZ (ks ++ [(tok, now)]) ttl) ->
  tok ∉ map fst ks ->
  (forall m, m ∈ ks -> m.2 < now) ->
  (forall m, m ∈ ks -> now - w < m.2) ->
  0 < ceil_div w 1000 ->
  fst (revertIncrementScript d k (now - w) w) !! k =
    match ks with [] => None | _ => Some (mkZ ks (Some (ceil_div w 1000))) end /\
  (forall k', k' <> k -> fst (revertIncrementScript d k (now - w) w) !! k' = d !! k').
Proof.
  intros Hd Hfresh Hnew Hwin Hs.
  assert (Htop : zrevrangeTop d k = Some tok).
  { unfold zrevrangeTop. rewrite Hd. simpl. by rewrite topMember_app_max. }
  assert (Hflt : filter (fun p : jstr * Z => p.1 <> tok) (ks ++ [(tok, now)]) = ks).
  { rewrite filter_app, (filter_all _ ks).
    - rewrite filter_cons_False by (simpl; congruence). simpl. by rewrite app_nil_r.
    - intros m Hm Heq. apply Hfresh. apply list_elem_of_fmap. exists m. auto. }
  assert (Hz : zrem d k tok =
    match ks with [] => delete k d | _ => <[k := mkZ ks ttl]> d end).
  { unfold zrem. rewrite Hd. simpl zmembers. rewrite Hflt. by destruct ks. }
  unfold revertIncrementScript. rewrite Htop. cbn [fst]. rewrite Hz.
  destruct ks as [|m ms].
  - assert (Hn : zremrangebyscore (delete k d) k (now - w) = delete k d).
    { unfold zremrangebyscore. by rewrite lookup_delete_eq. }
    rewrite Hn. unfold zcard. rewrite lookup_delete_eq. simpl.
    split; [apply lookup_delete_eq|]. intros k' Hk'. by apply lookup_delete_ne.
  - assert (Hn : zremrangebyscore (<[k := mkZ (m :: ms) ttl]> d) k (now - w) =
                 <[k := mkZ (m :: ms) ttl]> d).
    { unfold zremrangebyscore. rewrite lookup_insert_eq. simpl zmembers.
      rewrite filter_all by exact Hwin. rewrite insert_insert_eq. reflexivity. }
    rewrite Hn. unfold zcard. rewrite lookup_insert_eq. simpl zmembers.
    destruct (Z.ltb_spec 0 (Z.of_nat (length (m :: ms)))); [|simpl in *; lia].
    unfold expire. rewrite lookup_insert_eq. simpl zmembers.
    destruct (decide (ceil_div w 1000 <= 0)); [lia|].
    split; [by rewrite lookup_insert_eq|].
    intros k' Hk'. by rewrite !lookup_insert_ne.
Qed.

End SlidingMoreFacts.

Module TopFacts.
Import ZSet SlidingMore.

Lemma topMember_some (ms : list (jstr * Z)) : ms <> [] -> exists t, topMember ms = Some t.
Proof.
  destruct ms as [|p r]; [done|]. intros _. simpl.
  destruct (topMember r) as [q|]; [destruct (above q p)|]; eauto.
Qed.

Lemma topMember_in (ms : list (jstr * Z)) t : topMember ms = Some t -> t ∈ ms.
Proof.
  revert t. induction ms as [|p r IH]; intros t H; [discriminate|]. simpl in H.
  destruct (topMember r) as [q|] eqn:Eq.
  - destruct (above q p); injection H as <-; [right; by apply IH|left].
  - injection H as <-. left.
Qed.

Lemma topMember_max (ms : list (jstr * Z)) t :
  topMember ms = Some t -> forall m, m ∈ ms -> m.2 <= t.2.
Proof.
  revert t. induction ms as [|p r IH]; intros t H m Hm; [discriminate|]. simpl in H.
  destruct (topMember r) as [q|] eqn:Eq.
  - pose proof (IH q eq_refl) as Hq. unfold above in H.
    destruct (Z.ltb_spec p.2 q.2), (Z.eqb_spec q.2 p.2), (lexLt p.1 q.1);
      simpl in H; injection H as <-; apply elem_of_cons in Hm as [->|Hm];
      try lia; pose proof (Hq m Hm); lia.
  - injection H as <-. apply elem_of_cons in Hm as [->|Hm]; [lia|].
    destruct r; [by apply not_elem_of_nil in Hm|].
    simpl in Eq. destruct (topMember r); [destruct (above _ _)|]; discriminate.
Qed.

Lemma length_filter_drop (ms : list (jstr * Z)) t :
  NoDup (map fst ms) -> t ∈ ms ->
  length (filter (fun p : jstr * Z => p.1 <> t.1) ms) = (length ms - 1)%nat.
Proof.
  induction ms as [|p r IH]; intros Hnd Ht; [by apply not_elem_of_nil in Ht|].
  simpl in Hnd. apply NoDup_cons in Hnd as [Hp Hnd].
  destruct (decide (p.1 = t.1)) as [Heq|Hne].
  - rewrite filter_cons_False by (intros Hc; by apply Hc).
    rewrite SlidingMoreFacts.filter_all; [simpl; lia|].
    intros m Hm Hc. apply Hp. rewrite Heq, <- Hc. apply list_elem_of_fmap. eauto.
  - rewrite filter_cons_True by exact Hne.
    apply elem_of_cons in Ht as [->|Ht]; [done|].
    simpl. rewrite IH by done. destruct r; [by apply not_elem_of_nil in Ht|]. simpl. lia.
Qed.

Lemma revertScript_other (d : db) key k : k <> key -> fst (revertScript d key) !! k = d !! k.
Proof.
  intros Hk. unfold revertScript. cbn [fst].
  destruct (zrevrangeTop d key); [by apply SlidingMoreFacts.zrem_other|done].
Qed.

Lemma revertScript_missing (d : db) key : d !! key = None -> revertScript d key = (d, 0).
Proof.
  intros H. unfold revertScript, zrevrangeTop. rewrite H. cbv iota.
  unfold zcard. by rewrite H.
Qed.

Lemma onFinish_fold_other (d : db) identifier results k :
  (forall r, r ∈ results -> allowed r = true ->
     k <> Keys.generateRateLimitKey identifier (result_rule r)) ->
  fold_left (fun d result =>
               if allowed result then revertRateLimit d identifier (result_rule result) else d)
            results d !! k = d !! k.
Proof.
  revert d. induction results as [|r rs IH]; intros d H; [done|]. simpl.
  rewrite IH by (intros r' Hr'; apply H; by right).
  destruct (allowed r) eqn:Ea; [|done].
  apply revertScript_other. apply H; [left|done].
Qed.

End TopFacts.

Module SlidingPaths.
Import ZSet Sliding SlidingMore SlidingFacts SlidingMoreFacts TopFacts.

(** [getCurrentCountSlidingWindow] is the non-incrementing pass of
    [slidingWindowCheck]: same store, same entry.  It counts the members
    younger than the window, drops the key when none is left and otherwise
    keeps exactly those members with the TTL reset to the window; other keys
    are untouched. *)
Theorem getCurrentCountSlidingWindow_spec (d : db) (key : jstr) (rule : RateLimitRule) (now : Z) :
  0 < windowMs rule ->
  getCurrentCountSlidingWindow d key rule now =
    (fst (slidingWindowCheck d key rule false now []),
     fst (snd (slidingWindowCheck d key rule false now []))) /\
  count (snd (getCurrentCountSlidingWindow d key rule now)) =
    Z.of_nat (length (kept d key now (windowMs rule))) /\
  resetTime (snd (getCurrentCountSlidingWindow d key rule now)) = now + windowMs rule /\
  fst (getCurrentCountSlidingWindow d key rule now) !! key =
    match kept d key now (windowMs rule) with
    | [] => None
    | ks => Some (mkZ ks (Some (ceil_div (windowMs rule) 1000)))
    end /\
  (forall k, k <> key -> fst (getCurrentCountSlidingWindow d key rule now) !! k = d !! k).
Proof.
  intros Hw. pose proof (ceil_div_pos _ Hw) as Hs.
  destruct (readScript_state d key now (windowMs rule) (now + windowMs rule) Hs) as [H1 H2].
  split; [reflexivity|]. split; [apply zcard_purge|]. split; [reflexivity|]. split.
  - exact H1.
  - exact H2.
Qed.

(** [incrementCounterSlidingWindow]'s script, with its own re-check after
    the ZADD, decides and stores exactly as [slidingWindowCheck] with
    [increment] set, as long as the request token is not already a member. *)
Theorem incrementCounterSlidingWindow_eq_check (d : db) (key : jstr) (rule : RateLimitRule)
    (now : Z) (tok : jstr) :
  (forall e, d !! key = Some e -> tok ∉ map fst (zmembers e)) ->
  incrementCounterSlidingWindow d key rule now tok = slidingWindowCheck d key rule true now tok.
Proof.
  intros Hf. unfold incrementCounterSlidingWindow, incrementScript, slidingWindowCheck, script.
  pose proof (zcard_purge d key now (windowMs rule)) as Hc.
  pose proof (purge_fresh d key now (windowMs rule) tok Hf) as Hf1.
  destruct (zremrangebyscore_key d key now (windowMs rule)) as [t Ht].
  set (d1 := zremrangebyscore d key (now - windowMs rule)) in *. clearbody d1.
  set (C := zcard d1 key) in *.
  destruct (Z.leb_spec (maxRequests rule) C).
  - destruct (Z.ltb_spec C (maxRequests rule)); [lia|]. cbn [andb].
    destruct (Z.ltb_spec 0 C); [reflexivity|].
    rewrite expire_missing; [reflexivity|].
    rewrite Ht. destruct (kept d key now (windowMs rule)); [done|]. simpl in Hc. lia.
  - destruct (Z.ltb_spec C (maxRequests rule)); [|lia]. cbn [andb].
    rewrite (zcard_zadd_fresh d1 key now tok Hf1). fold C.
    destruct (Z.ltb_spec (maxRequests rule) (C + 1)); [lia|].
    destruct (Z.ltb_spec 0 (C + 1)); [reflexivity|]. lia.
Qed.

(** An admitted [slidingWindowCheck] followed by [revertIncrement] at the
    same instant leaves the store as a plain count would: the request's own
    member is the newest and is the one removed. *)
Theorem revertIncrement_after_admit (d : db) (key : jstr) (rule : RateLimitRule)
    (now : Z) (tok : jstr) :
  0 < windowMs rule ->
  (forall e, d !! key = Some e -> tok ∉ map fst (zmembers e)) ->
  (forall m, m ∈ kept d key now (windowMs rule) -> m.2 < now) ->
  Z.of_nat (length (kept d key now (windowMs rule))) < maxRequests rule ->
  revertIncrement (fst (slidingWindowCheck d key rule true now tok)) key rule now =
    fst (getCurrentCountSlidingWindow d key rule now).
Proof.
  intros Hw Hf Hold Hlt. pose proof (ceil_div_pos _ Hw) as Hs.
  destruct (check_admit_state d key rule now tok Hw Hf Hlt) as [Ha1 Ha2].
  destruct (revertIncrement_state _ key (kept d key now (windowMs rule)) tok now (windowMs rule)
              _ Ha1 (kept_fresh d key now (windowMs rule) tok Hf) Hold
              (kept_window d key now (windowMs rule)) Hs) as [Hr1 Hr2].
  destruct (readScript_state d key now (windowMs rule) (now + windowMs rule) Hs) as [H1 H2].
  unfold revertIncrement, getCurrentCountSlidingWindow.
  apply map_eq. intros k. destruct (decide (k = key)) as [->|Hk].
  - rewrite Hr1, H1. by destruct (kept d key now (windowMs rule)).
  - rewrite Hr2, H2, Ha2 by done. reflexivity.
Qed.

(** The middleware's [revertRateLimit] removes the highest-scored member of
    the rule's key and nothing else: on a non-empty set of distinct members
    the set keeps its other members and its TTL (or disappears when that
    member was the last), and the script reports one member fewer. *)
Theorem revertRateLimit_removes_top (d : db) (identifier : jstr) (rule : RateLimitRule) (e : zentry) :
  d !! Keys.generateRateLimitKey identifier rule = Some e ->
  zmembers e <> [] ->
  NoDup (map fst (zmembers e)) ->
  exists top, top ∈ zmembers e /\ (forall m, m ∈ zmembers e -> m.2 <= top.2) /\
    revertRateLimit d identifier rule !! Keys.generateRateLimitKey identifier rule =
      match filter (fun p : jstr * Z => p.1 <> top.1) (zmembers e) with
      | [] => None
      | ms => Some (mkZ ms (zttl e))
      end /\
    snd (revertScript d (Keys.generateRateLimitKey identifier rule)) =
      Z.of_nat (length (zmembers e)) - 1.
Proof.
  intros He Hne Hnd. destruct (topMember_some _ Hne) as [top Htop].
  exists top. split; [by apply topMember_in|]. split; [by apply topMember_max|].
  pose proof (length_filter_drop _ top Hnd (topMember_in _ _ Htop)) as Hlen.
  assert (Hz : zrevrangeTop d (Keys.generateRateLimitKey identifier rule) = Some top.1).
  { unfold zrevrangeTop. by rewrite He, Htop. }
  unfold revertRateLimit, revertScript. rewrite Hz. cbn [fst snd].
  unfold zrem. rewrite He.
  destruct (filter (fun p : jstr * Z => p.1 <> top.1) (zmembers e)) as [|m ms] eqn:Ef.
  - unfold zcard. rewrite lookup_delete_eq. split; [done|].
    simpl in Hlen. destruct (zmembers e) as [|x [|y r]]; [done| |]; simpl in *; lia.
  - unfold zcard. rewrite lookup_insert_eq. split; [done|]. simpl zmembers.
    rewrite Hlen. destruct (zmembers e); [done|]. simpl. lia.
Qed.

(** [revertRateLimit] touches only the rule's key, and a missing key is a
    no-op.  The [finish] handler, with [identifier] the default key
    generator's value, leaves the store alone for 1xx and 3xx statuses;
    otherwise it changes only keys [generateRateLimitKey identifier
    (result.rule)] of allowed results.  So a key counted under a rule's
    own key generator, whose identifier sanitizes differently from the
    default one, is never reverted. *)
Theorem revert_frame (d : db) (identifier : jstr) (statusCode : Z)
    (skipS skipF : bool) (results : list RateLimitResult) (rule : RateLimitRule) :
  (forall k, k <> Keys.generateRateLimitKey identifier rule ->
     revertRateLimit d identifier rule !! k = d !! k) /\
  (d !! Keys.generateRateLimitKey identifier rule = None -> revertRateLimit d identifier rule = d) /\
  ((statusCode < 200 \/ 300 <= statusCode < 400) ->
     onFinish d identifier statusCode skipS skipF results = d) /\
  (forall k, (forall r, r ∈ results -> allowed r = true ->
                k <> Keys.generateRateLimitKey identifier (result_rule r)) ->
     onFinish d identifier statusCode skipS skipF results !! k = d !! k) /\
  (forall ruleIdentifier,
     Keys.sanitizeKeyId ruleIdentifier <> Keys.sanitizeKeyId identifier ->
     onFinish d identifier statusCode skipS skipF results
       !! Keys.generateRateLimitKey ruleIdentifier rule =
     d !! Keys.generateRateLimitKey ruleIdentifier rule).
Proof.
  assert (Hfold : forall k, (forall r, r ∈ results -> allowed r = true ->
                k <> Keys.generateRateLimitKey identifier (result_rule r)) ->
     onFinish d identifier statusCode skipS skipF results !! k = d !! k).
  { intros k Hk. unfold onFinish. destruct (shouldRevert _ _ _); [|done].
    by apply onFinish_fold_other. }
  split; [|split; [|split; [|split; [exact Hfold|]]]].
  4:{ intros ri Hri. apply Hfold. intros r _ _ Heq.
      apply KeyFacts.generateRateLimitKey_split in Heq as (_ & _ & Hs). done. }
  - intros k Hk. by apply revertScript_other.
  - intros H. unfold revertRateLimit. by rewrite revertScript_missing.
  - intros Hst. unfold onFinish, shouldRevert.
    destruct (Z.leb_spec 200 statusCode), (Z.ltb_spec statusCode 300),
      (Z.leb_spec 400 statusCode); simpl; try reflexivity; lia.
Qed.

End SlidingPaths.

Module SlidingPathsWitness.
Import ZSet Sliding SlidingMore SlidingPaths Examples.

(** Two earlier requests at 4.5 s and 4.8 s, read at 5 s under the burst
    rule (10 per second). *)
Lemma getCurrentCountSlidingWindow_spec_witness :
  0 < windowMs ruleBurst /\
  count (snd (getCurrentCountSlidingWindow
                {[ js "k" := mkZ [(js "a", 4500); (js "b", 4800)] (Some 1) ]}
                (js "k") ruleBurst 5000)) = 2.
Proof.
  split; [reflexivity|].
  destruct (getCurrentCountSlidingWindow_spec
              {[ js "k" := mkZ [(js "a", 4500); (js "b", 4800)] (Some 1) ]}
              (js "k") ruleBurst 5000) as (_ & Hc & _).
  - reflexivity.
  - rewrite Hc. vm_compute. reflexivity.
Defined.

Lemma incrementCounterSlidingWindow_eq_check_witness :
  (forall e, ({[ js "k" := mkZ [(js "a", 4500); (js "b", 4800)] (Some 1) ]} : db) !! js "k" = Some e ->
     js "t" ∉ map fst (zmembers e)) /\
  incrementCounterSlidingWindow
    {[ js "k" := mkZ [(js "a", 4500); (js "b", 4800)] (Some 1) ]} (js "k") ruleBurst 5000 (js "t") =
  slidingWindowCheck
    {[ js "k" := mkZ [(js "a", 4500); (js "b", 4800)] (Some 1) ]} (js "k") ruleBurst true 5000 (js "t").
Proof.
  assert (Hf : forall e, ({[ js "k" := mkZ [(js "a", 4500); (js "b", 4800)] (Some 1) ]} : db)
                           !! js "k" = Some e -> js "t" ∉ map fst (zmembers e)).
  { intros e He. vm_compute in He. injection He as <-.
    apply (bool_decide_unpack _). vm_compute. reflexivity. }
  split; [exact Hf|].
  apply incrementCounterSlidingWindow_eq_check. exact Hf.
Defined.

Lemma revertIncrement_after_admit_witness :
  revertIncrement
    (fst (slidingWindowCheck {[ js "k" := mkZ [(js "a", 4500); (js "b", 4800)] (Some 1) ]}
            (js "k") ruleBurst true 5000 (js "t"))) (js "k") ruleBurst 5000 =
  fst (getCurrentCountSlidingWindow {[ js "k" := mkZ [(js "a", 4500); (js "b", 4800)] (Some 1) ]}
         (js "k") ruleBurst 5000).
Proof.
  assert (Hk : kept {[ js "k" := mkZ [(js "a", 4500); (js "b", 4800)] (Some 1) ]}
                 (js "k") 5000 (windowMs ruleBurst) = [(js "a", 4500); (js "b", 4800)])
    by reflexivity.
  apply revertIncrement_after_admit.
  - reflexivity.
  - intros e He. vm_compute in He. injection He as <-.
    apply (bool_decide_unpack _). vm_compute. reflexivity.
  - rewrite Hk. intros m Hm.
    repeat (apply elem_of_cons in Hm as [->|Hm]; [simpl; lia|]).
    by apply not_elem_of_nil in Hm.
  - rewrite Hk. simpl. lia.
Defined.

Lemma revertRateLimit_removes_top_witness :
  exists top, top ∈ [(js "a", 4500); (js "b", 4800)] /\
    (forall m, m ∈ [(js "a", 4500); (js "b", 4800)] -> m.2 <= top.2) /\
    revertRateLimit
      {[ Keys.generateRateLimitKey (js "1.2.3.4") ruleBurst :=
           mkZ [(js "a", 4500); (js "b", 4800)] (Some 1) ]}
      (js "1.2.3.4") ruleBurst !! Keys.generateRateLimitKey (js "1.2.3.4") ruleBurst =
      match filter (fun p : jstr * Z => p.1 <> top.1) [(js "a", 4500); (js "b", 4800)] with
      | [] => None
      | ms => Some (mkZ ms (Some 1))
      end /\
    snd (revertScript
           {[ Keys.generateRateLimitKey (js "1.2.3.4") ruleBurst :=
                mkZ [(js "a", 4500); (js "b", 4800)] (Some 1) ]}
           (Keys.generateRateLimitKey (js "1.2.3.4") ruleBurst)) = 2 - 1.
Proof.
  apply (revertRateLimit_removes_top _ _ _ (mkZ [(js "a", 4500); (js "b", 4800)] (Some 1))).
  - vm_compute. reflexivity.
  - discriminate.
  - apply (bool_decide_unpack _). vm_compute. reflexivity.
Defined.

End SlidingPathsWitness.

Module SweepFacts.

(** One sweep of [startLocalCacheCleanup] keeps exactly the entries whose
    [resetTime] has not passed, and is invisible to the in-memory fallback:
    a later [checkRateLimitInMemory] gives the same result and stores the
    same entry, since it reinitialises an expired entry anyway. *)
Theorem localCacheSweep_invisible (lc : localCache) (t now : Z) (key : jstr)
    (rule : RateLimitRule) :
  t <= now ->
  (forall k e, localCacheSweep lc t !! k = Some e <-> lc !! k = Some e /\ t <= resetTime e) /\
  snd (checkRateLimitInMemory (localCacheSweep lc t) key rule now) =
    snd (checkRateLimitInMemory lc key rule now) /\
  fst (checkRateLimitInMemory (localCacheSweep lc t) key rule now) !! key =
    fst (checkRateLimitInMemory lc key rule now) !! key.
Proof.
  intros Ht.
  assert (Hl : forall k e, localCacheSweep lc t !! k = Some e <->
                           lc !! k = Some e /\ t <= resetTime e).
  { intros k e. unfold localCacheSweep. rewrite map_lookup_filter_Some. simpl.
    split; intros [Hk He]; split; auto; lia. }
  split; [exact Hl|].
  assert (Hk : localCacheSweep lc t !! key = lc !! key \/
               (localCacheSweep lc t !! key = None /\
                exists e, lc !! key = Some e /\ resetTime e < t)).
  { destruct (lc !! key) as [e|] eqn:E.
    - destruct (Z.le_gt_cases t (resetTime e)) as [Hle|Hgt].
      + left. apply Hl. auto.
      + right. split; [|exists e; split; [reflexivity|lia]].
        destruct (localCacheSweep lc t !! key) as [e'|] eqn:E'; [|reflexivity].
        apply Hl in E' as [E' He']. rewrite E in E'. injection E' as <-. lia.
    - left. destruct (localCacheSweep lc t !! key) as [e'|] eqn:E'; [|reflexivity].
      apply Hl in E' as [E' _]. congruence. }
  unfold checkRateLimitInMemory, checkRateLimitInMemoryAt.
  destruct Hk as [Hk | [Hk (e & He & Hlt)]]; rewrite Hk; [split; [reflexivity|cbn [fst]; by rewrite !lookup_insert_eq]|].
  rewrite He. replace (now >=? resetTime e) with true by (symmetry; apply Z.geb_le; lia).
  split; [reflexivity|cbn [fst]; by rewrite !lookup_insert_eq].
Qed.

End SweepFacts.

Module ThrottleFacts.
Import Throttle.

Lemma find_burst_none (rules : list RateLimitRule) :
  (forall r, In r rules -> id r <> js "burst") ->
  List.find (fun r => bool_decide (id r = js "burst")) rules = None.
Proof.
  intros H. destruct (List.find _ rules) as [r|] eqn:E; [|reflexivity].
  apply find_some in E as [Hin Hb]. apply bool_decide_eq_true in Hb. by destruct (H r Hin).
Qed.

Lemma calculateThrottleDelay_burst (rules : list RateLimitRule) (tm : gmap jstr Z)
    (identifier : jstr) (now : Z) (br : RateLimitRule) :
  List.find (fun r => bool_decide (id r = js "burst")) rules = Some br ->
  maxRequests br <> 0 ->
  calculateThrottleDelay rules tm identifier now =
    (cleanupThrottleMap (<[identifier := now]> tm) now,
     Qmax 0 (inject_Z (windowMs br) / inject_Z (maxRequests br) -
             inject_Z (now - match tm !! identifier with Some t => t | None => 0 end))).
Proof.
  intros Hf Hm. unfold calculateThrottleDelay. rewrite Hf.
  apply Z.eqb_neq in Hm. rewrite Hm. reflexivity.
Qed.

(** The throttle delay is never negative; without a rule named ["burst"]
    there is no delay and the throttle map is left alone; and a client whose
    previous request is at least [windowMs / maxRequests] of the burst rule
    ago is not delayed. *)
Theorem calculateThrottleDelay_delay (rules : list RateLimitRule) (tm : gmap jstr Z)
    (identifier : jstr) (now : Z) :
  (0 <= snd (calculateThrottleDelay rules tm identifier now))%Q /\
  ((forall r, In r rules -> id r <> js "burst") ->
     calculateThrottleDelay rules tm identifier now = (tm, 0%Q)) /\
  (forall br, List.find (fun r => bool_decide (id r = js "burst")) rules = Some br ->
     (inject_Z (windowMs br) / inject_Z (maxRequests br) <=
        inject_Z (now - match tm !! identifier with Some t => t | None => 0 end))%Q ->
     (snd (calculateThrottleDelay rules tm identifier now) == 0)%Q).
Proof.
  split; [|split].
  - unfold calculateThrottleDelay. destruct (List.find _ rules) as [r|]; [|apply Qle_refl].
    destruct (maxRequests r =? 0); [apply Qle_refl|]. apply Q.le_max_l.
  - intros H. unfold calculateThrottleDelay. by rewrite find_burst_none.
  - intros br Hf Hle. destruct (Z.eq_dec (maxRequests br) 0) as [Hm|Hm].
    + unfold calculateThrottleDelay. rewrite Hf, Hm. reflexivity.
    + rewrite (calculateThrottleDelay_burst rules tm identifier now br Hf Hm). cbn [snd].
      apply Q.max_l. rewrite Qle_minus_iff in Hle |- *.
      setoid_replace (0 + - (inject_Z (windowMs br) / inject_Z (maxRequests br) -
                     inject_Z (now - match tm !! identifier with Some t => t | None => 0 end)))%Q
        with (inject_Z (now - match tm !! identifier with Some t => t | None => 0 end) +
              - (inject_Z (windowMs br) / inject_Z (maxRequests br)))%Q
        using relation Qeq by ring.
      exact Hle.
Qed.

(** With a burst rule in force, [calculateThrottleDelay] records the
    request time for the client; the cleanup that follows only drops
    entries older than a minute, and only once the map holds more than
    1000 entries; it adds nothing else.  A second request at the same
    instant is delayed by the full [windowMs / maxRequests]. *)
Theorem calculateThrottleDelay_map (rules : list RateLimitRule) (tm : gmap jstr Z)
    (identifier : jstr) (now : Z) (br : RateLimitRule) :
  List.find (fun r => bool_decide (id r = js "burst")) rules = Some br ->
  maxRequests br <> 0 ->
  fst (calculateThrottleDelay rules tm identifier now) !! identifier = Some now /\
  (forall k t, k <> identifier -> tm !! k = Some t -> now - 60000 <= t ->
     fst (calculateThrottleDelay rules tm identifier now) !! k = Some t) /\
  (forall k t, fst (calculateThrottleDelay rules tm identifier now) !! k = Some t ->
     (k = identifier /\ t = now) \/ (k <> identifier /\ tm !! k = Some t)) /\
  (Z.of_nat (size (<[identifier := now]> tm)) <= 1000 ->
     fst (calculateThrottleDelay rules tm identifier now) = <[identifier := now]> tm) /\
  (snd (calculateThrottleDelay rules (fst (calculateThrottleDelay rules tm identifier now))
          identifier now)
   == Qmax 0 (inject_Z (windowMs br) / inject_Z (maxRequests br)))%Q.
Proof.
  intros Hf Hm.
  assert (Hcl : forall k t, cleanupThrottleMap (<[identifier := now]> tm) now !! k = Some t <->
            <[identifier := now]> tm !! k = Some t /\
            (1000 < Z.of_nat (size (<[identifier := now]> tm)) -> now - 60000 <= t)).
  { intros k t. unfold cleanupThrottleMap.
    destruct (Z.ltb_spec 1000 (Z.of_nat (size (<[identifier := now]> tm)))) as [Hs|Hs].
    - rewrite map_lookup_filter_Some. simpl. split.
      + intros [Hk Ht]. split; [exact Hk|intros _; lia].
      + intros [Hk Ht]. split; [exact Hk|]. specialize (Ht Hs). lia.
    - split; [intros Hk; split; [exact Hk|lia]|tauto]. }
  assert (Hid : cleanupThrottleMap (<[identifier := now]> tm) now !! identifier = Some now).
  { apply Hcl. rewrite lookup_insert_eq. split; [reflexivity|lia]. }
  rewrite (calculateThrottleDelay_burst rules tm identifier now br Hf Hm). cbn [fst snd].
  split; [exact Hid|]. split; [|split; [|split]].
  - intros k t Hk Ht Hw. apply Hcl. rewrite lookup_insert_ne by congruence. auto.
  - intros k t Hk. apply Hcl in Hk as [Hk _]. destruct (decide (k = identifier)) as [->|Hne].
    + rewrite lookup_insert_eq in Hk. injection Hk as <-. auto.
    + rewrite lookup_insert_ne in Hk by congruence. auto.
  - intros Hs. unfold cleanupThrottleMap.
    destruct (Z.ltb_spec 1000 (Z.of_nat (size (<[identifier := now]> tm)))); [lia|reflexivity].
  - rewrite (calculateThrottleDelay_burst rules _ identifier now br Hf Hm). cbn [snd].
    rewrite Hid, Z.sub_diag.
    setoid_replace (inject_Z (windowMs br) / inject_Z (maxRequests br) - inject_Z 0)%Q
      with (inject_Z (windowMs br) / inject_Z (maxRequests br))%Q using relation Qeq by ring.
    reflexivity.
Qed.

End ThrottleFacts.

Module StringFacts.

Lemma filter_id_In {A} (f : A -> bool) (l : list A) :
  (forall x, In x l -> f x = true) -> List.filter f l = l.
Proof.
  induction l as [|x l IH]; intros H; [reflexivity|]. simpl.
  rewrite H by (left; reflexivity). f_equal. apply IH. intros y Hy. apply H. by right.
Qed.

Lemma In_firstn {A} (n : nat) (l : list A) (x : A) : In x (firstn n l) -> In x l.
Proof. intros H. rewrite <- (firstn_skipn n l). apply in_or_app. by left. Qed.

End StringFacts.

Module HeaderFacts.
Import StringFacts.

(** [sanitizeHeaderValue] leaves no CR, LF or TAB and at most 100 code
    units; it is idempotent, and a value that is already clean and short
    enough passes unchanged. *)
Theorem sanitizeHeaderValue_spec (value : jstr) :
  (forall c, In c (sanitizeHeaderValue value) -> c <> 9 /\ c <> 10 /\ c <> 13) /\
  (length (sanitizeHeaderValue value) <= 100)%nat /\
  sanitizeHeaderValue (sanitizeHeaderValue value) = sanitizeHeaderValue value /\
  ((forall c, In c value -> c <> 9 /\ c <> 10 /\ c <> 13) -> (length value <= 100)%nat ->
     sanitizeHeaderValue value = value).
Proof.
  assert (Hc : forall c, In c (sanitizeHeaderValue value) -> c <> 9 /\ c <> 10 /\ c <> 13).
  { intros c H. apply In_firstn, filter_In in H as [_ H].
    destruct (Z.eqb_spec c 13), (Z.eqb_spec c 10), (Z.eqb_spec c 9);
      simpl in H; try discriminate; lia. }
  assert (Hclean : forall v, (forall c, In c v -> c <> 9 /\ c <> 10 /\ c <> 13) ->
            List.filter (fun c => negb ((c =? 13) || (c =? 10) || (c =? 9))) v = v).
  { intros v Hv. apply filter_id_In. intros c Hin. destruct (Hv c Hin) as (H9 & H10 & H13).
    apply Z.eqb_neq in H9, H10, H13. rewrite H9, H10, H13. reflexivity. }
  split; [exact Hc|].
  split; [unfold sanitizeHeaderValue; rewrite length_firstn; lia|].
  split.
  - unfold sanitizeHeaderValue at 1. rewrite Hclean by exact Hc.
    unfold sanitizeHeaderValue. rewrite firstn_firstn. reflexivity.
  - intros Hv Hlen. unfold sanitizeHeaderValue. rewrite Hclean by exact Hv.
    by apply firstn_all2.
Qed.

End HeaderFacts.

Module BreakerRuns.
Import Breaker.

Lemma run_failures (ts : list Z) (cb : CircuitBreaker) :
  state cb = CLOSED -> failures cb < failureThreshold cb ->
  failures cb + Z.of_nat (length ts) <= failureThreshold cb ->
  failures (run cb (map (fun t => (t, false)) ts)) = failures cb + Z.of_nat (length ts) /\
  state (run cb (map (fun t => (t, false)) ts)) =
    (if failures cb + Z.of_nat (length ts) =? failureThreshold cb then OPEN else CLOSED).
Proof.
  revert cb. induction ts as [|t ts IH]; intros cb Hs Hlt Hle.
  - simpl. rewrite Hs. destruct (Z.eqb_spec (failures cb + Z.of_nat 0) (failureThreshold cb)); [lia|].
    split; [lia|reflexivity].
  - destruct cb as [f lt st th rt]; simpl in Hs, Hlt, Hle |- *. subst st.
    unfold execute, guard, onFailure; simpl.
    destruct (f + 1 >=? th) eqn:E; zbool.
    + destruct ts as [|t' ts]; [|simpl in Hle; lia]. simpl.
      destruct (Z.eqb_spec (f + Z.of_nat 1) th); [split; [lia|reflexivity]|lia].
    + destruct (IH (mkCB (f + 1) t CLOSED th rt)) as [H1 H2]; simpl; [reflexivity|lia|lia|].
      simpl in H1, H2. rewrite H1, H2.
      replace (f + Z.of_nat (S (length ts))) with (f + 1 + Z.of_nat (length ts)) by lia.
      split; reflexivity.
Qed.

(** From a fresh breaker, consecutive failures keep it CLOSED, counting
    them, until their number reaches [failureThreshold]; the failure that
    reaches it opens the breaker, whatever the times of the calls. *)
Theorem breaker_consecutive_failures (thr to : Z) (ts : list Z) :
  1 <= thr ->
  (Z.of_nat (length ts) < thr ->
     state (run (newCircuitBreaker thr to) (map (fun t => (t, false)) ts)) = CLOSED /\
     failures (run (newCircuitBreaker thr to) (map (fun t => (t, false)) ts)) =
       Z.of_nat (length ts)) /\
  (Z.of_nat (length ts) = thr ->
     state (run (newCircuitBreaker thr to) (map (fun t => (t, false)) ts)) = OPEN /\
     failures (run (newCircuitBreaker thr to) (map (fun t => (t, false)) ts)) = thr).
Proof.
  intros Hthr. split; intros Hlen;
    (destruct (run_failures ts (newCircuitBreaker thr to)) as [H1 H2];
     simpl; [reflexivity|lia|lia|]); simpl in H1, H2; rewrite H1, H2.
  - destruct (Z.eqb_spec (0 + Z.of_nat (length ts)) thr); [lia|split; [reflexivity|lia]].
  - destruct (Z.eqb_spec (0 + Z.of_nat (length ts)) thr); [split; [reflexivity|lia]|lia].
Qed.

End BreakerRuns.

Module DigitFacts.
Import Keys.

Lemma digitChar_inj (d e : Z) : 0 <= d < 36 -> 0 <= e < 36 -> digitChar d = digitChar e -> d = e.
Proof. unfold digitChar. intros Hd He. destruct (Z.ltb_spec d 10), (Z.ltb_spec e 10); lia. Qed.

Lemma digitsAux_nonempty (fuel : nat) (b n : Z) : digitsAux (S fuel) b n <> [].
Proof. simpl. intros H. apply app_eq_nil in H as [_ H]. discriminate. Qed.

Lemma digitsAux_range (fuel : nat) (b n c : Z) :
  2 <= b <= 36 -> 0 <= n -> c ∈ digitsAux fuel b n -> (48 <= c <= 57) \/ (97 <= c <= 122).
Proof.
  intros Hb. revert n. induction fuel as [|f IH]; intros n Hn; simpl;
    [intros H; by apply not_elem_of_nil in H|].
  rewrite elem_of_app, list_elem_of_singleton. intros [H| ->].
  - destruct (n <? b); [by apply not_elem_of_nil in H|].
    apply (IH (n / b)); [apply Z.div_pos; lia|exact H].
  - pose proof (Z.mod_pos_bound n b ltac:(lia)). unfold digitChar.
    destruct (Z.ltb_spec (n mod b) 10); lia.
Qed.

Lemma digitsAux_inj (b : Z) (f f' : nat) (n m : Z) :
  2 <= b <= 36 -> 0 <= n < b ^ Z.of_nat f -> 0 <= m < b ^ Z.of_nat f' ->
  digitsAux f b n = digitsAux f' b m -> n = m.
Proof.
  intros Hb. revert f' n m. induction f as [|f IH]; intros f' n m Hn Hm Heq.
  - destruct f' as [|f']; [simpl in Hn, Hm; lia|].
    exfalso. symmetry in Heq. by apply digitsAux_nonempty in Heq.
  - destruct f' as [|f']; [exfalso; by apply digitsAux_nonempty in Heq|].
    simpl in Heq. apply app_inj_tail in Heq as [Hp Hd].
    pose proof (Z.mod_pos_bound n b ltac:(lia)). pose proof (Z.mod_pos_bound m b ltac:(lia)).
    apply digitChar_inj in Hd; [|lia|lia].
    rewrite Nat2Z.inj_succ, Z.pow_succ_r in Hn, Hm by lia.
    rewrite (Z.div_mod n b), (Z.div_mod m b) by lia. rewrite Hd. f_equal. f_equal.
    destruct (Z.ltb_spec n b), (Z.ltb_spec m b).
    + rewrite !Z.div_small by lia. reflexivity.
    + destruct f' as [|f'']; [simpl in Hm; lia|].
      exfalso. symmetry in Hp. by apply digitsAux_nonempty in Hp.
    + destruct f as [|f'']; [simpl in Hn; lia|].
      exfalso. by apply digitsAux_nonempty in Hp.
    + apply (IH f'); [split; [apply Z.div_pos; lia|apply Z.div_lt_upper_bound; lia]
                    |split; [apply Z.div_pos; lia|apply Z.div_lt_upper_bound; lia]|exact Hp].
Qed.

Lemma fuel_bound (b n : Z) : 2 <= b -> 0 <= n -> n < b ^ Z.of_nat (S (Z.to_nat (Z.log2 n))).
Proof.
  intros Hb Hn. rewrite Nat2Z.inj_succ, Z2Nat.id by apply Z.log2_nonneg.
  destruct (Z.eq_dec n 0) as [->|Hn0]; [simpl; lia|].
  pose proof (Z.log2_spec n ltac:(lia)) as [_ H2].
  eapply Z.lt_le_trans; [exact H2|]. apply Z.pow_le_mono_l. lia.
Qed.

Lemma toStringRadix_inj (b n m : Z) :
  2 <= b <= 36 -> 0 <= n -> 0 <= m -> toStringRadix b n = toStringRadix b m -> n = m.
Proof.
  intros Hb Hn Hm. unfold toStringRadix. apply digitsAux_inj; [exact Hb| |].
  - split; [exact Hn|apply fuel_bound; lia].
  - split; [exact Hm|apply fuel_bound; lia].
Qed.

Lemma numberToString_inj (n m : Z) :
  0 <= n -> 0 <= m -> numberToString n = numberToString m -> n = m.
Proof.
  intros Hn Hm. unfold numberToString.
  destruct (Z.ltb_spec n 0); [lia|]. destruct (Z.ltb_spec m 0); [lia|].
  apply toStringRadix_inj; lia.
Qed.

(** [hashString] yields a non-empty string of [0-9a-z], the base-36
    digits of the absolute value of the 32-bit hash, so two strings get the
    same hash string exactly when their 32-bit hashes agree up to sign. *)
Theorem hashString_base36 (s1 s2 : jstr) :
  hashString s1 <> [] /\
  (forall c, c ∈ hashString s1 -> (48 <= c <= 57) \/ (97 <= c <= 122)) /\
  (hashString s1 = hashString s2 <->
   Z.abs (fold_left (fun hash char => toInt32 (toInt32 (hash * 32) - hash + char)) s1 0) =
   Z.abs (fold_left (fun hash char => toInt32 (toInt32 (hash * 32) - hash + char)) s2 0)).
Proof.
  unfold hashString, toStringRadix. split; [apply digitsAux_nonempty|]. split.
  - intros c. apply digitsAux_range; [lia|apply Z.abs_nonneg].
  - split; [|intros ->; reflexivity].
    intros H. apply (toStringRadix_inj 36); [lia|apply Z.abs_nonneg|apply Z.abs_nonneg|exact H].
Qed.

End DigitFacts.

Module PortFacts.
Import Keys Ident IdentFacts StringFacts DigitFacts.

Lemma withPort_remotePort (req : Request) : withPort req (remotePort req) = req.
Proof. by destruct req. Qed.

Lemma getClientIdentifier_remote (req : Request) (p : option Z) :
  present (xForwardedFor req) = None -> present (xRealIp req) = None ->
  present (xClientIp req) = None -> present (cfConnectingIp req) = None ->
  getClientIdentifier (withPort req p) =
    if bool_decide (sanitizeIpAddress (fst (chosen req)) = js "::1")
       || bool_decide (sanitizeIpAddress (fst (chosen req)) = js "127.0.0.1")
       || bool_decide (sanitizeIpAddress (fst (chosen req)) = js "localhost")
    then sanitizeIpAddress (fst (chosen req))
    else match p with
         | Some port => if port =? 0 then sanitizeIpAddress (fst (chosen req))
                        else sanitizeIpAddress (fst (chosen req)) ++ js ":" ++ numberToString port
         | None => sanitizeIpAddress (fst (chosen req))
         end.
Proof.
  destruct req as [a b c d e f g port]. unfold getClientIdentifier, chosen, withPort.
  cbn [xForwardedFor xRealIp xClientIp cfConnectingIp connRemoteAddress socketRemoteAddress
       reqIp remotePort].
  intros -> -> -> ->. reflexivity.
Qed.

(** The remote port only matters for a client identified by a
    non-loopback remote address: when a forwarding header is present, or
    the address is [::1], [127.0.0.1] or [localhost], the identifier does
    not depend on the port; otherwise two different non-zero ports give two
    different identifiers, so each connection of such a client is limited
    on its own. *)
Theorem getClientIdentifier_port (req : Request) :
  (forall p, (present (xForwardedFor req) <> None \/ present (xRealIp req) <> None \/
              present (xClientIp req) <> None \/ present (cfConnectingIp req) <> None) ->
     getClientIdentifier (withPort req p) = getClientIdentifier req) /\
  (forall p, present (xForwardedFor req) = None -> present (xRealIp req) = None ->
     present (xClientIp req) = None -> present (cfConnectingIp req) = None ->
     sanitizeIpAddress (fst (chosen req)) ∈ [js "::1"; js "127.0.0.1"; js "localhost"] ->
     getClientIdentifier (withPort req p) = getClientIdentifier req) /\
  (forall p1 p2, present (xForwardedFor req) = None -> present (xRealIp req) = None ->
     present (xClientIp req) = None -> present (cfConnectingIp req) = None ->
     sanitizeIpAddress (fst (chosen req)) ∉ [js "::1"; js "127.0.0.1"; js "localhost"] ->
     0 < p1 -> 0 < p2 -> p1 <> p2 ->
     getClientIdentifier (withPort req (Some p1)) <> getClientIdentifier (withPort req (Some p2))).
Proof.
  split; [|split].
  - intros p. destruct req as [a b c d e f g port]. unfold getClientIdentifier, withPort.
    cbn [xForwardedFor xRealIp xClientIp cfConnectingIp connRemoteAddress socketRemoteAddress
         reqIp remotePort].
    destruct (present a); [reflexivity|]. destruct (present b); [reflexivity|].
    destruct (present c); [reflexivity|]. destruct (present d); [reflexivity|].
    intros [H|[H|[H|H]]]; by destruct H.
  - intros p H1 H2 H3 H4 Hl.
    rewrite <- (withPort_remotePort req) at 2.
    rewrite !getClientIdentifier_remote by assumption.
    assert (Hb : (bool_decide (sanitizeIpAddress (fst (chosen req)) = js "::1")
       || bool_decide (sanitizeIpAddress (fst (chosen req)) = js "127.0.0.1")
       || bool_decide (sanitizeIpAddress (fst (chosen req)) = js "localhost")) = true).
    { repeat (apply elem_of_cons in Hl as [Hl|Hl]; [rewrite Hl; reflexivity|]).
      by apply not_elem_of_nil in Hl. }
    by rewrite Hb.
  - intros p1 p2 H1 H2 H3 H4 Hl Hp1 Hp2 Hne.
    rewrite !getClientIdentifier_remote by assumption.
    assert (Hb : (bool_decide (sanitizeIpAddress (fst (chosen req)) = js "::1")
       || bool_decide (sanitizeIpAddress (fst (chosen req)) = js "127.0.0.1")
       || bool_decide (sanitizeIpAddress (fst (chosen req)) = js "localhost")) = false).
    { repeat case_bool_decide; try reflexivity; exfalso; apply Hl;
        match goal with H : sanitizeIpAddress _ = _ |- _ => rewrite H end; set_solver. }
    rewrite Hb.
    destruct (Z.eqb_spec p1 0); [lia|]. destruct (Z.eqb_spec p2 0); [lia|].
    intros Heq. apply app_inv_head, app_inv_head in Heq.
    apply numberToString_inj in Heq; lia.
Qed.

(** Sanitising an IP address twice is the same as once. *)
Theorem sanitizeIpAddress_idempotent (x : jstr) :
  sanitizeIpAddress (sanitizeIpAddress x) = sanitizeIpAddress x.
Proof.
  rewrite (sanitizeIpAddress_eq (sanitizeIpAddress x)), (sanitizeIpAddress_eq x).
  destruct (firstn 45 (stripControl x)) as [|c t] eqn:E; [vm_compute; reflexivity|].
  assert (Hs : stripControl (c :: t) = c :: t).
  { unfold stripControl. apply filter_id_In. intros d Hd.
    rewrite <- E in Hd. apply In_firstn in Hd. unfold stripControl in Hd.
    apply filter_In in Hd as [_ Hd]. exact Hd. }
  rewrite Hs, firstn_all2; [reflexivity|].
  rewrite <- E, length_firstn. lia.
Qed.

End PortFacts.

Module ResetAll.
Import Reset.

Lemma cacheReset_keep (delOk : jstr -> bool) (st : LimiterState) (key k : jstr) :
  localEntries st !! k = None /\ k ∉ redisKeys st ->
  localEntries (cacheResetRateLimit delOk st key) !! k = None /\
  k ∉ redisKeys (cacheResetRateLimit delOk st key).
Proof.
  intros [H1 H2]. unfold cacheResetRateLimit. destruct (delOk key); [simpl|by split].
  split; [|set_solver].
  destruct (decide (k = key)) as [->|Hne]; [apply lookup_delete_eq|].
  rewrite lookup_delete_ne by congruence. exact H1.
Qed.

Lemma fold_reset_keep (delOk : jstr -> bool) (rules : list RateLimitRule) (st : LimiterState)
    (identifier k : jstr) :
  localEntries st !! k = None /\ k ∉ redisKeys st ->
  localEntries (fold_left (fun st rule =>
      cacheResetRateLimit delOk st (Keys.generateRateLimitKey identifier rule)) rules st) !! k = None /\
  k ∉ redisKeys (fold_left (fun st rule =>
      cacheResetRateLimit delOk st (Keys.generateRateLimitKey identifier rule)) rules st).
Proof.
  revert st. induction rules as [|r rs IH]; intros st H; [exact H|]. simpl.
  apply IH. by apply cacheReset_keep.
Qed.

Lemma fold_reset_hit (delOk : jstr -> bool) (rules : list RateLimitRule) (st : LimiterState)
    (identifier : jstr) (r : RateLimitRule) :
  In r rules ->
  delOk (Keys.generateRateLimitKey identifier r) = true ->
  localEntries (fold_left (fun st rule =>
      cacheResetRateLimit delOk st (Keys.generateRateLimitKey identifier rule)) rules st)
    !! Keys.generateRateLimitKey identifier r = None /\
  Keys.generateRateLimitKey identifier r ∉ redisKeys (fold_left (fun st rule =>
      cacheResetRateLimit delOk st (Keys.generateRateLimitKey identifier rule)) rules st).
Proof.
  intros Hin Hok. revert st. induction rules as [|r' rs IH]; intros st; [done|]. simpl.
  destruct Hin as [<-|Hin]; [|by apply IH].
  apply fold_reset_keep. unfold cacheResetRateLimit. rewrite Hok; simpl.
  split; [apply lookup_delete_eq|set_solver].
Qed.

Lemma fold_reset_miss (delOk : jstr -> bool) (rules : list RateLimitRule) (st : LimiterState)
    (identifier k : jstr) :
  (forall r, In r rules -> k = Keys.generateRateLimitKey identifier r -> delOk k = false) ->
  localEntries (fold_left (fun st rule =>
      cacheResetRateLimit delOk st (Keys.generateRateLimitKey identifier rule)) rules st) !! k =
    localEntries st !! k /\
  (k ∈ redisKeys (fold_left (fun st rule =>
      cacheResetRateLimit delOk st (Keys.generateRateLimitKey identifier rule)) rules st) <->
   k ∈ redisKeys st).
Proof.
  revert st. induction rules as [|r rs IH]; intros st H; [done|]. simpl.
  destruct (IH (cacheResetRateLimit delOk st (Keys.generateRateLimitKey identifier r))) as [H1 H2];
    [intros r' Hr'; apply H; by right|].
  rewrite H1, H2. unfold cacheResetRateLimit.
  destruct (delOk (Keys.generateRateLimitKey identifier r)) eqn:Ed; [simpl|done].
  destruct (decide (k = Keys.generateRateLimitKey identifier r)) as [Heq|Hne].
  - exfalso. pose proof (H r (or_introl eq_refl) Heq) as Hf. rewrite Heq in Hf. congruence.
  - rewrite lookup_delete_ne by congruence. split; [reflexivity|set_solver].
Qed.

Lemma fold_reset_throttle (delOk : jstr -> bool) (rules : list RateLimitRule) (st : LimiterState)
    (identifier : jstr) :
  throttleMap (fold_left (fun st rule =>
      cacheResetRateLimit delOk st (Keys.generateRateLimitKey identifier rule)) rules st) =
  throttleMap st.
Proof.
  revert st. induction rules as [|r rs IH]; intros st; [reflexivity|]. simpl.
  rewrite IH. unfold cacheResetRateLimit. by destruct (delOk _).
Qed.

(** [resetRateLimit] without a rule id: for every configured rule whose
    key the store deletes, the client's key leaves the store and the
    local cache, so the next in-memory check of that rule counts 1.  A
    key of no configured rule, or one whose deletion fails (the store is
    down and the error is swallowed), is kept in both.  The client
    always leaves the throttle map. *)
Theorem resetRateLimit_all (delOk : jstr -> bool) (rules : list RateLimitRule)
    (st : LimiterState) (identifier : jstr) :
  (forall r, In r rules -> delOk (Keys.generateRateLimitKey identifier r) = true ->
     (Keys.generateRateLimitKey identifier r
        ∉ redisKeys (resetRateLimit delOk rules st identifier None)) /\
     localEntries (resetRateLimit delOk rules st identifier None)
       !! Keys.generateRateLimitKey identifier r = None /\
     (forall now, totalRequests (info (snd (checkRateLimitInMemory
        (localEntries (resetRateLimit delOk rules st identifier None))
        (Keys.generateRateLimitKey identifier r) r now))) = 1)) /\
  (forall k, (forall r, In r rules -> k = Keys.generateRateLimitKey identifier r ->
                        delOk k = false) ->
     localEntries (resetRateLimit delOk rules st identifier None) !! k = localEntries st !! k /\
     (k ∈ redisKeys (resetRateLimit delOk rules st identifier None) <-> k ∈ redisKeys st)) /\
  throttleMap (resetRateLimit delOk rules st identifier None) = delete identifier (throttleMap st).
Proof.
  unfold resetRateLimit, Ident.present. cbn [redisKeys localEntries throttleMap].
  split; [|split].
  - intros r Hin Hok. destruct (fold_reset_hit delOk rules st identifier r Hin Hok) as [H1 H2].
    split; [exact H2|]. split; [exact H1|].
    intros now. unfold checkRateLimitInMemory, checkRateLimitInMemoryAt. rewrite H1. reflexivity.
  - intros k Hk. by apply fold_reset_miss.
  - by rewrite fold_reset_throttle.
Qed.

End ResetAll.

Module AtomicFacts.
Import ZSet Concurrent.

(** The clients in [seen] have finished; the others have not started. *)
Definition started (reqs : list request) (ps : list prog) (seen : list nat) : Prop :=
  length ps = length reqs /\
  forall i q, reqs !! i = Some q ->
    (i ∈ seen -> exists r, ps !! i = Some (Done r)) /\
    (i ∉ seen -> ps !! i = Some (checkOf q)).

Lemma run_cons (d : db) (ps : list prog) (i : nat) (s : list nat) :
  run d ps (i :: s) = run (step d ps i).1 (step d ps i).2 s.
Proof. unfold run. simpl. by destruct (step d ps i). Qed.

Lemma run_serialFrom (reqs : list request) (sched : list nat) :
  forall d ps seen, started reqs ps seen ->
  run d ps sched = serialFrom reqs (d, ps) (firstSteps (length reqs) sched seen).
Proof.
  induction sched as [|i s IH]; intros d ps seen [Hlen Hst]; [reflexivity|].
  rewrite run_cons. cbn [firstSteps].
  destruct (decide (i < length reqs)%nat) as [Hlt|Hge].
  - destruct (lookup_lt_is_Some_2 reqs i Hlt) as [q Hq].
    destruct (decide (i ∈ seen)) as [Hin|Hnin].
    + rewrite bool_decide_eq_true_2 by exact Hlt.
      rewrite bool_decide_eq_true_2 by exact Hin. cbn [negb andb].
      destruct (proj1 (Hst i q Hq) Hin) as [r Hr].
      unfold step. rewrite Hr. cbn [fst snd]. by apply IH.
    + rewrite bool_decide_eq_true_2 by exact Hlt.
      rewrite bool_decide_eq_false_2 by exact Hnin. cbn [negb andb].
      pose proof (proj2 (Hst i q Hq) Hnin) as Hp.
      destruct q as [[[key rule] now] tok].
      unfold step. rewrite Hp. cbn [checkOf evalCheck].
      destruct (Sliding.slidingWindowCheck _ _ _ _ _ _) as [d' r] eqn:E.
      cbn [fst snd].
      unfold serialFrom. cbn [fold_left]. rewrite Hq. cbn [fst snd]. rewrite E.
      apply IH. split; [by rewrite length_insert|].
      intros j q' Hq'. destruct (decide (j = i)) as [->|Hne].
      * split; [|intros Hn; exfalso; apply Hn; left].
        intros _. exists r. apply list_lookup_insert_eq. lia.
      * rewrite list_lookup_insert_ne by congruence.
        split; intros Hj; apply (Hst j q' Hq').
        -- by apply elem_of_cons in Hj as [?|?].
        -- intros Hj'. apply Hj. by right.
  - rewrite bool_decide_eq_false_2 by exact Hge. cbn [andb].
    unfold step. rewrite (lookup_ge_None_2 ps i) by lia. cbn [fst snd].
    by apply IH.
Qed.

Lemma firstSteps_nodup (n : nat) (sched : list nat) :
  forall seen, NoDup (firstSteps n sched seen) /\
  (forall x, x ∈ firstSteps n sched seen -> (x ∉ seen) /\ (x < n)%nat).
Proof.
  induction sched as [|i s IH]; intros seen; cbn [firstSteps].
  - split; [constructor|]. intros x Hx. by apply not_elem_of_nil in Hx.
  - destruct (bool_decide (i < n)%nat && negb (bool_decide (i ∈ seen))) eqn:E.
    + apply andb_true_iff in E as [E1 E2].
      apply bool_decide_eq_true_1 in E1. apply negb_true_iff, bool_decide_eq_false_1 in E2.
      destruct (IH (i :: seen)) as [Hnd Hx].
      split.
      * constructor; [|exact Hnd]. intros Hi. apply (proj1 (Hx i Hi)). left.
      * intros x Hin. apply elem_of_cons in Hin as [->|Hin]; [done|].
        destruct (Hx x Hin) as [Hn Hl]. split; [|done]. intros Hs. apply Hn. by right.
    + apply IH.
Qed.

(** C9.  [slidingWindowCheck] sends the purge, [ZCARD], conditional
    [ZADD] and [EXPIRE] as one [EVAL], one atomic step of the server.  So
    every interleaving of concurrent check-and-increment calls, on any
    keys, ends exactly as the serial execution of the same calls, each run
    whole in the order in which it reached the server, which names each
    call at most once: no call observes another one half done.  The same
    four commands sent one by one from the client would not be
    serializable: two interleaved checks at limit 1 on one key are both
    admitted, which no serial order does. *)
Theorem slidingWindowCheck_serializable :
  (forall (d : db) (reqs : list request) (sched : list nat),
     run d (map checkOf reqs) sched =
       serialFrom reqs (d, map checkOf reqs) (firstSteps (length reqs) sched []) /\
     NoDup (firstSteps (length reqs) sched []) /\
     (forall i, i ∈ firstSteps (length reqs) sched [] -> (i < length reqs)%nat)) /\
  (let rule := mkRule (js "api") 1000 1 None in
   let scripted := map checkOf [(js "k", rule, 5000, js "a"); (js "k", rule, 5000, js "b")] in
   let multi := [multiCheck (js "k") rule 5000 (js "a"); multiCheck (js "k") rule 5000 (js "b")] in
   map doneAllowed (run ∅ scripted [0; 1; 0; 1; 0; 1; 0; 1]%nat).2 = [Some true; Some false] /\
   map doneAllowed (run ∅ multi [0; 1; 0; 1; 0; 1; 0; 1]%nat).2 = [Some true; Some true] /\
   map doneAllowed (run ∅ multi [0; 0; 0; 0; 1; 1; 1; 1]%nat).2 = [Some true; Some false] /\
   map doneAllowed (run ∅ multi [1; 1; 1; 1; 0; 0; 0; 0]%nat).2 = [Some false; Some true]).
Proof.
  split.
  - intros d reqs sched. split.
    + apply run_serialFrom. split; [by rewrite length_map|].
      intros i q Hq. split; [intros Hi; by apply not_elem_of_nil in Hi|].
      intros _. rewrite list_lookup_fmap, Hq. reflexivity.
    + destruct (firstSteps_nodup (length reqs) sched []) as [Hnd Hx].
      split; [exact Hnd|]. intros i Hi. exact (proj2 (Hx i Hi)).
  - vm_compute. repeat split.
Qed.

End AtomicFacts.

Module MoreWitness.
Import Examples SweepFacts ThrottleFacts BreakerRuns Breaker.

(** An entry that expired at 4 s, swept at 4.5 s, checked at 5 s. *)
Lemma localCacheSweep_invisible_witness :
  4500 <= 5000 /\
  snd (checkRateLimitInMemory (localCacheSweep {[ js "k" := mkEntry 3 4000 1000 ]} 4500)
         (js "k") ruleBurst 5000) =
  snd (checkRateLimitInMemory {[ js "k" := mkEntry 3 4000 1000 ]} (js "k") ruleBurst 5000).
Proof.
  split; [lia|].
  destruct (localCacheSweep_invisible {[ js "k" := mkEntry 3 4000 1000 ]} 4500 5000
              (js "k") ruleBurst ltac:(lia)) as (_ & H & _).
  exact H.
Defined.

(** The demonstration server's rules, with a client last seen at 4.95 s. *)
Lemma calculateThrottleDelay_map_witness :
  List.find (fun r => bool_decide (id r = js "burst")) [ruleGlobal; ruleBurst] = Some ruleBurst /\
  maxRequests ruleBurst <> 0 /\
  fst (Throttle.calculateThrottleDelay [ruleGlobal; ruleBurst] {[ js "c" := 4950 ]} (js "c") 5000)
    !! js "c" = Some 5000.
Proof.
  split; [reflexivity|]. split; [discriminate|].
  destruct (calculateThrottleDelay_map [ruleGlobal; ruleBurst] {[ js "c" := 4950 ]} (js "c") 5000
              ruleBurst eq_refl ltac:(discriminate)) as (H & _).
  exact H.
Defined.

(** Three failures at 1, 2 and 3 ms open a breaker of threshold 3. *)
Lemma breaker_consecutive_failures_witness :
  1 <= 3 /\
  state (run (newCircuitBreaker 3 30000) (map (fun t => (t, false)) [1; 2; 3])) = OPEN.
Proof.
  split; [lia|].
  destruct (breaker_consecutive_failures 3 30000 [1; 2; 3] ltac:(lia)) as [_ H].
  exact (proj1 (H eq_refl)).
Defined.

End MoreWitness.
